(** * Instant previews of internal links

    A shallow embedding of
    [src/templates/assets/javascripts/components/content/link/index.ts]:
    the URL resolver ([resolve]), the content extractor ([extract],
    [nextElements]), the preference signal ([instantPreviewEnabled] and its
    subscriber), the activation gate ([active]) and the preview pipeline of
    [mountLink], written as a transition system over the events the link
    receives.

    Conventions.
    - A DOM tree is a rose tree of text and element nodes; attributes are a
      finite map from names to values ([getAttribute] is lookup,
      [setAttribute] is insert).  The elements are HTML elements, and the
      tag of an element is its local name, in lower case.
    - An element handed around by reference (the [headline] of [extract]) is
      a [position]: the element together with its siblings and ancestors, so
      that [nextElementSibling] and [parentElement] can be followed.
    - An observable is the list of the values it emits, oldest first; an
      operator is a function on such lists.  The pipeline of [mountLink],
      whose inner subscriptions are replaced and torn down over time, is a
      step function on an explicit state.
    - The module level variable [sequence] is threaded through [resolve].
    - A JavaScript exception is the result [None]. *)

From Stdlib Require Import Lia Ascii.
From stdpp Require Import base option list gmap sets strings pretty.

Set Warnings "-register-all".
#[local] Open Scope string_scope.
#[local] Open Scope list_scope.
#[local] Open Scope nat_scope.

(* ------------------------------------------------------------------------- *)
(** * Observables as lists                                                    *)
(* ------------------------------------------------------------------------- *)

Module Rx.

Section Operators.
Context {A : Type} `{EqDecision A}.

(** [distinctUntilChanged()] remembers the value it emitted last and drops a
    value equal to it; [prev] is that memory, [None] before the first
    emission. *)
Fixpoint distinctUntilChanged_from (prev : option A) (xs : list A) : list A :=
  match xs with
  | [] => []
  | x :: rest =>
      if decide (prev = Some x)
      then distinctUntilChanged_from prev rest
      else x :: distinctUntilChanged_from (Some x) rest
  end.

Definition distinctUntilChanged : list A → list A :=
  distinctUntilChanged_from None.

(** [startWith(x)] emits [x] before anything the source emits. *)
Definition startWith (x : A) (xs : list A) : list A := x :: xs.

(** The value [shareReplay(1)] hands to a late subscriber: the last one. *)
Definition replayed (xs : list A) : option A := last xs.

(** No two neighbours of the list are equal. *)
Fixpoint no_repeats_from (prev : option A) (xs : list A) : Prop :=
  match xs with
  | [] => True
  | x :: rest => prev ≠ Some x ∧ no_repeats_from (Some x) rest
  end.

End Operators.

End Rx.

(* ------------------------------------------------------------------------- *)
(** * The document object model                                               *)
(* ------------------------------------------------------------------------- *)

Module Dom.

Inductive node : Type :=
| Text (data : string)
| Elem (tag : string) (attrs : gmap string string) (children : list node).

Definition tagName (n : node) : string :=
  match n with Text _ => "" | Elem t _ _ => t end.

Definition attributes (n : node) : gmap string string :=
  match n with Text _ => ∅ | Elem _ a _ => a end.

Definition childNodes (n : node) : list node :=
  match n with Text _ => [] | Elem _ _ cs => cs end.

Definition is_element (n : node) : bool :=
  match n with Text _ => false | Elem _ _ _ => true end.

Definition getAttribute (key : string) (n : node) : option string :=
  attributes n !! key.

(** [el.textContent]: the text of all descendants, in document order. *)
Fixpoint textContent (n : node) : string :=
  match n with
  | Text d => d
  | Elem _ _ cs =>
      (fix go (l : list node) : string :=
         match l with
         | [] => ""
         | c :: rest => textContent c +:+ go rest
         end) cs
  end.

(** ASCII whitespace, which separates the tokens of a [class] attribute. *)
Definition is_ascii_whitespace (c : ascii) : bool :=
  match c with
  | "009" | "010" | "012" | "013" | " " => true
  | _ => false
  end%char.

Fixpoint split_whitespace (s : string) : list string :=
  match s with
  | "" => [""]
  | String c rest =>
      if is_ascii_whitespace c then "" :: split_whitespace rest
      else match split_whitespace rest with
           | [] => [String c ""]
           | t :: ts => String c t :: ts
           end
  end.

(** [el.classList]: the tokens of the [class] attribute. *)
Definition classList (n : node) : list string :=
  filter (λ t, t ≠ "") (split_whitespace (default "" (getAttribute "class" n))).

Definition classList_contains (token : string) (n : node) : bool :=
  bool_decide (token ∈ classList n).

(** [el instanceof HTMLHeadingElement]: one of [h1] to [h6]. *)
Definition is_heading (n : node) : bool :=
  bool_decide (tagName n ∈ ["h1"; "h2"; "h3"; "h4"; "h5"; "h6"]).

(** [el instanceof HTMLAnchorElement]. *)
Definition is_anchor (n : node) : bool :=
  bool_decide (tagName n = "a").

(** An ancestor of a position: its tag and attributes, and its own siblings
    ([f_before] nearest first, [f_after] in document order). *)
Record frame : Type := Frame {
  f_tag : string;
  f_attrs : gmap string string;
  f_before : list node;
  f_after : list node
}.

(** An element inside a tree: the element, the siblings before it (nearest
    first) and after it, and its ancestors (innermost first). *)
Record position : Type := Position {
  element : node;
  before : list node;
  after : list node;
  ancestors : list frame
}.

(** [el.parentElement], [None] for [null]. *)
Definition parentElement (p : position) : option position :=
  match ancestors p with
  | [] => None
  | f :: up =>
      Some (Position
              (Elem (f_tag f) (f_attrs f)
                    (rev (before p) ++ element p :: after p))
              (f_before f) (f_after f) up)
  end.

(** [el.nextElementSibling]: the first element among the nodes after the
    position, [None] for [null]. *)
Fixpoint first_element (siblings : list node) : option node :=
  match siblings with
  | [] => None
  | Text _ :: rest => first_element rest
  | (Elem _ _ _ as el) :: _ => Some el
  end.

Definition nextElementSibling (p : position) : option node :=
  first_element (after p).

(** The two selectors [mountLink] builds: the string [article [id="..."]]
    with an identifier pasted between the quotes, and [article h1]. *)
Inductive selector : Type :=
| ArticleId (id : string)
| ArticleH1.

(** What the selectors match, [article] apart, the identifier of the first
    being read as it is written. *)
Definition selects (sel : selector) (n : node) : bool :=
  match sel with
  | ArticleId i => bool_decide (getAttribute "id" n = Some i)
  | ArticleH1 => bool_decide (tagName n = "h1")
  end.

(** Modelled from the spec: [getOptionalElement] of [~/browser] is
    [querySelector] with [undefined] for no match.  For what [selects]
    matches, below [n] it is the first element in document order that
    matches and has an [article] ancestor; [inside] tells whether an
    ancestor of [n] is one. *)
Fixpoint querySelector_in (sel : selector) (inside : bool) (n : node)
    (bef aft : list node) (up : list frame) : option position :=
  match n with
  | Text _ => None
  | Elem t a cs =>
      if inside && selects sel n then Some (Position n bef aft up)
      else
        (fix children (seen todo : list node) {struct todo} : option position :=
           match todo with
           | [] => None
           | c :: rest =>
               match querySelector_in sel (inside || bool_decide (t = "article"))
                       c seen rest (Frame t a bef aft :: up) with
               | Some p => Some p
               | None => children (c :: seen) rest
               end
           end) [] cs
  end.

(** All elements below and including [n], in document order: what
    [getElements("*", n)] returns. *)
Fixpoint elements (n : node) : list node :=
  match n with
  | Text _ => []
  | Elem _ _ cs => n :: concat (map elements cs)
  end.

End Dom.

Import Dom.

(* ------------------------------------------------------------------------- *)
(** * What the module takes from its environment                              *)
(* ------------------------------------------------------------------------- *)

(** The functions [index.ts] calls and does not define.
    - [new_URL value base] is [new URL(value, base).toString()], [None] when
      the constructor throws a [TypeError];
    - [decodeURIComponent], [None] when it throws a [URIError];
    - [copy_innerHTML tag source] are the child nodes an element created with
      [document.createElement(tag)] has after its [innerHTML] is assigned
      the [innerHTML] of [source]: the children of [source] serialised to
      HTML, and that text parsed as a fragment inside a [tag] element.  They
      are copies of the children of [source] where the parser builds the
      same nodes there, and differ where it does not: the rows and cells of
      a table, read outside of one, leave their contents only;
    - [querySelector_quoted id] is [querySelector] for the selector
      [article [id="..."]] with [id] between the quotes, where [id] holds a
      character a quoted string of CSS does not take for itself: [None]
      when the selector is rejected with a [SyntaxError], and otherwise the
      search it stands for, [None] for no match;
    - [renderTooltip2 els] is the overlay node the template builds around the
      extracted elements. *)
Class Environment : Type := {
  new_URL : string → string → option string;
  decodeURIComponent : string → option string;
  copy_innerHTML : string → node → list node;
  querySelector_quoted : string → option (node → option position);
  renderTooltip2 : list node → node
}.

(* ------------------------------------------------------------------------- *)
(** * Finding the target                                                      *)
(* ------------------------------------------------------------------------- *)

(** The characters a quoted string of a selector takes for themselves: all
    but the quote that ends it, the backslash that escapes, the line feed,
    form feed and carriage return that break it, and the null character that
    is replaced. *)
Definition reads_literally (c : ascii) : bool :=
  match c with
  | "034" | "092" | "010" | "012" | "013" | "000" => false
  | _ => true
  end%char.

Fixpoint literal (id : string) : bool :=
  match id with
  | "" => true
  | String c rest => reads_literally c && literal rest
  end.

(** Modelled from the spec: [getOptionalElement(selector, doc)] throws what
    [querySelector] throws, a [SyntaxError] when the selector is not one.
    [article h1] is one, and so is [article [id="..."]] around a literal
    identifier. *)
Definition selector_throws `{Environment} (sel : selector) : bool :=
  match sel with
  | ArticleId id =>
      negb (literal id)
      && match querySelector_quoted id with None => true | Some _ => false end
  | ArticleH1 => false
  end.

(** Modelled from the spec: [getOptionalElement(selector, doc)] where it
    does not throw, [None] for [undefined].  An identifier that is literal
    is compared with the [id] of the elements as it is; for any other the
    selector is what [querySelector] makes of it. *)
Definition getOptionalElement `{Environment} (sel : selector) (doc : node)
    : option position :=
  match sel with
  | ArticleId id =>
      if literal id then querySelector_in sel false doc [] [] []
      else find ← querySelector_quoted id; find doc
  | ArticleH1 => querySelector_in sel false doc [] [] []
  end.

(* ------------------------------------------------------------------------- *)
(** * Content extractor                                                       *)
(* ------------------------------------------------------------------------- *)

(** The default predicate of [nextElements]:
    [!(el instanceof HTMLHeadingElement || el.classList.contains("doc"))]. *)
Definition default_predicate (el : node) : bool :=
  negb (is_heading el || classList_contains "doc" el).

(** The predicate [extract] passes for a heading inside a [.doc] block:
    [el.classList.contains("doc-contents") ||
     el.classList.contains("doc-signature")]. *)
Definition doc_predicate (el : node) : bool :=
  classList_contains "doc-contents" el || classList_contains "doc-signature" el.

(** The loop of [nextElements] over the nodes that follow the base element:
    [nextElementSibling] steps over text nodes, and the loop ends at the
    first element the predicate rejects. *)
Fixpoint collect (predicate : node → bool) (siblings : list node) : list node :=
  match siblings with
  | [] => []
  | Text _ :: rest => collect predicate rest
  | (Elem _ _ _ as el) :: rest =>
      if predicate el then el :: collect predicate rest else []
  end.

Definition nextElements (baseElement : position) (predicate : node → bool)
    : list node :=
  collect predicate (after baseElement).

(** [document.createElement("h3")] with the [innerHTML] of the headline
    assigned to its [innerHTML]. *)
Definition newHeading `{Environment} (headline : position) : node :=
  Elem "h3" ∅ (copy_innerHTML "h3" (element headline)).

(** The headline is a bare anchor:
    [headline instanceof HTMLAnchorElement && headline.textContent === ""]. *)
Definition bare_anchor (headline : position) : bool :=
  is_anchor (element headline)
  && bool_decide (textContent (element headline) = "").

(** [extract(headline)].  The result is [None] where the source throws: a
    bare anchor without a parent element, whose [parentElement!] is [null]. *)
Definition extract `{Environment} (headline : position) : option (list node) :=
  let els := newHeading headline :: nextElements headline default_predicate in
  if bare_anchor headline then
    parent ← parentElement headline;
    Some (els ++ nextElements parent default_predicate)
  else
    match parentElement headline with
    | Some parent =>
        if classList_contains "doc" (element parent)
        then Some (els ++ nextElements parent doc_predicate)
        else Some els
    | None => Some els
    end.

(** The elements among some nodes, as [nextElementSibling] walks them. *)
Definition element_siblings (siblings : list node) : list node :=
  filter (λ n, is_element n = true) siblings.

(** The scan of the structured-documentation override as the specification
    words it, to compare [nextElements] with: siblings that are not contents
    or signature blocks are skipped, and the scan goes on until a heading or
    the end of the siblings. *)
Fixpoint skipping_scan (siblings : list node) : list node :=
  match siblings with
  | [] => []
  | Text _ :: rest => skipping_scan rest
  | (Elem _ _ _ as el) :: rest =>
      if is_heading el then []
      else if doc_predicate el then el :: skipping_scan rest
      else skipping_scan rest
  end.

(* ------------------------------------------------------------------------- *)
(** * URL resolver                                                            *)
(* ------------------------------------------------------------------------- *)

(** A value JavaScript takes for true in [if (value)]: a string that is not
    empty ([null] is the [None] of [getAttribute]). *)
Definition truthy (value : string) : bool := bool_decide (value ≠ "").

Definition is_letter (c : ascii) : bool :=
  let n := nat_of_ascii c in
  ((65 <=? n) && (n <=? 90)) || ((97 <=? n) && (n <=? 122)).

(** The letters [[a-z]+] consumes at the start of a string (under the [i]
    flag), and what is left. *)
Fixpoint skip_letters (s : string) : nat * string :=
  match s with
  | String c rest =>
      if is_letter c
      then let '(k, r) := skip_letters rest in (S k, r)
      else (0, s)
  | "" => (0, "")
  end.

(** [/^(?:[a-z]+:)?\/\//i.test(value)]: an optional scheme, then [//]. *)
Definition is_absolute (value : string) : bool :=
  String.prefix "//" value
  || (let '(k, rest) := skip_letters value in
      (0 <? k) && String.prefix "://" rest).

(** The assignment [el[key] = url] sets a property of the element, and
    reaches the attribute of the same name only where the interface of the
    element has that property and the property reflects the attribute: [href]
    on [a], [area], [link] and [base]; [src] on [img], [script], [iframe],
    [embed], [audio], [video], [source], [track], [input] and [frame].  On
    every other HTML element the assignment makes a property of the object,
    and the attribute stays as it is. *)
Definition reflects (tag key : string) : bool :=
  if decide (key = "href")
  then bool_decide (tag ∈ ["a"; "area"; "link"; "base"])
  else if decide (key = "src")
  then bool_decide (tag ∈ ["img"; "script"; "iframe"; "embed"; "audio"; "video";
                           "source"; "track"; "input"; "frame"])
  else false.

(** The inner loop over [["href", "src"]] for one element with the tag
    [tag]: at the first key whose value is not empty and not absolute, the
    URL constructor is called, the result is assigned to [el[key]], and the
    loop breaks, whether or not the assignment reaches the attribute. *)
Fixpoint replace_link `{Environment} (keys : list string) (base : string)
    (tag : string) (a : gmap string string) : option (gmap string string) :=
  match keys with
  | [] => Some a
  | key :: rest =>
      match a !! key with
      | Some value =>
          if truthy value && negb (is_absolute value)
          then url ← new_URL value base;
               Some (if reflects tag key then <[key := url]> a else a)
          else replace_link rest base tag a
      | None => replace_link rest base tag a
      end
  end.

(** The attribute of an element the loop over [["href", "src"]] assigns to:
    the first of the two whose value is not empty and not absolute. *)
Definition relative_at (a : gmap string string) (key : string) : bool :=
  from_option (λ value, truthy value && negb (is_absolute value)) false (a !! key).

Definition first_relative (a : gmap string string) : option string :=
  if relative_at a "href" then Some "href"
  else if relative_at a "src" then Some "src"
  else None.

(** The selector [[href], [src]]. *)
Definition has_link (a : gmap string string) : bool :=
  bool_decide (is_Some (a !! "href")) || bool_decide (is_Some (a !! "src")).

Definition replace_links `{Environment} (base : string) (tag : string)
    (a : gmap string string) : option (gmap string string) :=
  if has_link a then replace_link ["href"; "src"] base tag a else Some a.

(** The suffix [`$preview_${sequence}`]. *)
Definition preview_suffix (sequence : nat) : string :=
  "$preview_" +:+ pretty sequence.

(** The inner loop over [["id", "for", "name"]] for one element. *)
Fixpoint suffix_keys (keys : list string) (suffix : string)
    (a : gmap string string) : gmap string string :=
  match keys with
  | [] => a
  | key :: rest =>
      suffix_keys rest suffix
        (match a !! key with
         | Some value =>
             if truthy value then <[key := value +:+ suffix]> a else a
         | None => a
         end)
  end.

(** The selector [[name^=__], [for]]. *)
Definition has_identifier (a : gmap string string) : bool :=
  from_option (String.prefix "__") false (a !! "name")
  || bool_decide (is_Some (a !! "for")).

Definition suffix_identifiers (sequence : nat) (a : gmap string string)
    : gmap string string :=
  if has_identifier a
  then suffix_keys ["id"; "for"; "name"] (preview_suffix sequence) a
  else a.

(** A loop [for (const el of getElements(..., document))] whose body may
    throw, and one whose body does not: every element of the tree is visited
    once, in document order, and updated in place.  The body is given the
    tag and the attributes of the element. *)
Fixpoint for_elements_try
    (body : string → gmap string string → option (gmap string string))
    (n : node) : option node :=
  match n with
  | Text d => Some (Text d)
  | Elem t a cs =>
      a' ← body t a;
      cs' ← mapM (for_elements_try body) cs;
      Some (Elem t a' cs')
  end.

Fixpoint for_elements (body : gmap string string → gmap string string)
    (n : node) : node :=
  match n with
  | Text d => Text d
  | Elem t a cs => Elem t (body a) (map (for_elements body) cs)
  end.

(** [resolve(document, base)], with the module variable [sequence] passed in
    and out.  The observable [of(document)] it returns emits the document
    once, at subscription: the result here is that document. *)
Definition resolve `{Environment} (document : node) (base : string)
    (sequence : nat) : option (node * nat) :=
  linked ← for_elements_try (replace_links base) document;
  Some (for_elements (suffix_identifiers sequence) linked, S sequence).

(** What [resolve] does to one element: the first loop, then the second. *)
Definition resolved `{Environment} (base : string) (sequence : nat)
    (e e' : node) : Prop :=
  tagName e' = tagName e
  ∧ ∃ linked, replace_links base (tagName e) (attributes e) = Some linked
              ∧ attributes e' = suffix_identifiers sequence linked.

(** What [resolve] makes of the [href] and [src] of an element [e], the
    element being [e'] afterwards:
    - the attribute that is the first relative one of [e] holds its value
      resolved against [base] if the property of that name reflects it on
      this element, and the value it had if not; the other attribute holds
      the value it had;
    - in particular a value that matches the pattern of absolute URLs stays;
    - and one of the two attributes at least is as it was. *)
Definition links_resolved `{Environment} (base : string) (e e' : node) : Prop :=
  (∀ key, key = "href" ∨ key = "src" →
     getAttribute key e' =
     if decide (first_relative (attributes e) = Some key)
     then if reflects (tagName e) key
          then getAttribute key e ≫= (λ value, new_URL value base)
          else getAttribute key e
     else getAttribute key e)
  ∧ (∀ key value, key = "href" ∨ key = "src" →
       getAttribute key e = Some value →
       is_absolute value = true →
       getAttribute key e' = Some value)
  ∧ (getAttribute "href" e' = getAttribute "href" e
     ∨ getAttribute "src" e' = getAttribute "src" e).

(** The URL constructor accepts the values the first loop hands to it: for
    every element, the value of its first relative attribute. *)
Definition accepted `{Environment} (base : string) (document : node) : Prop :=
  Forall (λ e, ∀ key value,
            first_relative (attributes e) = Some key →
            getAttribute key e = Some value →
            is_Some (new_URL value base))
    (elements document).

(** The keys of the second loop, and what it makes of a value. *)
Definition identifier_keys : list string := ["id"; "for"; "name"].

Definition suffixed (suffix value : string) : string :=
  if truthy value then value +:+ suffix else value.

(** The identifiers of an element [e] that the second loop selects, the
    element being [e'] afterwards: every one of [id], [for] and [name] that
    is not empty has become [rewritten] of its value. *)
Definition identifiers_rewritten (rewritten : string → string) (e e' : node)
    : Prop :=
  ∀ key value,
    key ∈ identifier_keys →
    has_identifier (attributes e) = true →
    getAttribute key e = Some value → value ≠ "" →
    getAttribute key e' = Some (rewritten value).

(** Resolving several fetched documents one after the other; each result is
    paired with the value [sequence] had when its call started. *)
Fixpoint resolve_all `{Environment} (documents : list node) (base : string)
    (sequence : nat) : option (list (node * nat) * nat) :=
  match documents with
  | [] => Some ([], sequence)
  | d :: rest =>
      '(d', sequence') ← resolve d base sequence;
      '(ds, final) ← resolve_all rest base sequence';
      Some ((d', sequence) :: ds, final)
  end.

(* ------------------------------------------------------------------------- *)
(** * Preference store                                                        *)
(* ------------------------------------------------------------------------- *)

(** An [input] element of the host page, as far as the subscriber looks at
    it: its [name] and [value] attributes, whether it is checked, and its
    radio button group, [None] for an input that is not a radio button.  The
    radio buttons of one form with one name have one group. *)
Record input : Type := Input {
  input_name : string;
  input_value : string;
  checked : bool;
  radio_group : option nat
}.

(** Modelled from the spec: [__md_get] and [__md_set] read and write one
    named setting of the persisted preferences.

    The host page around the module:
    - [toggle]: whether
      [getOptionalElement("[data-md-component=instant-preview-toggle]")]
      finds the form;
    - [storage]: the settings [__md_get] reads and [__md_set] writes;
    - [written]: the calls of [__md_set] so far, oldest first;
    - [instantPreview]: [document.body.dataset.instantPreview];
    - [inputs]: the [input] elements in document order. *)
Record page : Type := Page {
  toggle : bool;
  storage : gmap string bool;
  written : list (string * bool);
  instantPreview : option string;
  inputs : list input
}.

Definition md_get (key : string) (p : page) : option bool := storage p !! key.

Definition md_set (key : string) (value : bool) (p : page) : page :=
  Page (toggle p) (<[key := value]> (storage p))
       (written p ++ [(key, value)]) (instantPreview p) (inputs p).

(** [instantPreviewEnabled$]: the values it emits for the [change] events of
    the form, each given by the [value] of its target. *)
Definition instantPreviewEnabled (p : page) (changes : list string) : list bool :=
  if negb (toggle p) then [true]
  else
    Rx.distinctUntilChanged
      (Rx.startWith (default true (md_get "instant.preview" p))
         (map (λ value, bool_decide (value = "on")) changes)).

Definition onoff (enabled : bool) : string := if enabled then "on" else "off".

(** [input[name=__instant_preview][value=${onoff}]]. *)
Definition is_toggle_input (value : string) (i : input) : Prop :=
  input_name i = "__instant_preview" ∧ input_value i = value.

#[global] Instance is_toggle_input_dec value i : Decision (is_toggle_input value i).
Proof. unfold is_toggle_input. apply _. Defined.

(** What [target.checked = true], for the input [target] at the index [k],
    makes of the input [i] at the index [j]: the target is checked, and if
    it is a radio button the others of its group are unchecked. *)
Definition check (target : input) (k j : nat) (i : input) : input :=
  if decide (j = k)
  then Input (input_name i) (input_value i) true (radio_group i)
  else if decide (is_Some (radio_group target)
                  ∧ radio_group i = radio_group target)
       then Input (input_name i) (input_value i) false (radio_group i)
       else i.

(** The subscriber of [instantPreviewEnabled$]. *)
Definition subscriber (enabled : bool) (p : page) : page :=
  let p1 := md_set "instant.preview" enabled p in
  let p2 := Page (toggle p1) (storage p1) (written p1)
                 (Some (onoff enabled)) (inputs p1) in
  match list_find (is_toggle_input (onoff enabled)) (inputs p2) with
  | Some (k, i) =>
      Page (toggle p2) (storage p2) (written p2) (instantPreview p2)
           (imap (check i k) (inputs p2))
  | None => p2
  end.

(** The page after the subscriber has seen the given emissions. *)
Definition subscribed (emissions : list bool) (p : page) : page :=
  fold_left (λ q enabled, subscriber enabled q) emissions p.

(* ------------------------------------------------------------------------- *)
(** * Activation gate                                                         *)
(* ------------------------------------------------------------------------- *)

(** An emission of one of the three sources of [combineLatest]:
    [watchElementFocus(el)], [watchElementHover(el)] and
    [instantPreviewEnabled$]. *)
Inductive gate_input : Type :=
| Focus (b : bool)
| Hover (b : bool)
| Enabled (b : bool).

(** The latest value of each source, [None] before its first emission. *)
Record latest : Type := Latest {
  focus : option bool;
  hover : option bool;
  enabled : option bool
}.

Definition no_values : latest := Latest None None None.

Definition update (i : gate_input) (l : latest) : latest :=
  match i with
  | Focus b => Latest (Some b) (hover l) (enabled l)
  | Hover b => Latest (focus l) (Some b) (enabled l)
  | Enabled b => Latest (focus l) (hover l) (Some b)
  end.

Definition values (l : latest) : option (bool * bool * bool) :=
  f ← focus l; h ← hover l; e ← enabled l; Some (f, h, e).

(** [combineLatest]: once every source has emitted, each emission of any
    source yields the triple of the latest values. *)
Fixpoint combineLatest_from (l : latest) (ins : list gate_input)
    : list (bool * bool * bool) :=
  match ins with
  | [] => []
  | i :: rest =>
      match values (update i l) with
      | Some v => v :: combineLatest_from (update i l) rest
      | None => combineLatest_from (update i l) rest
      end
  end.

Definition combineLatest : list gate_input → list (bool * bool * bool) :=
  combineLatest_from no_values.

(** [([focus, hover, enabled]) => (focus || hover) && enabled]. *)
Definition combined (v : bool * bool * bool) : bool :=
  let '(f, h, e) := v in (f || h) && e.

(** The state of the gate between two inputs: the latest values, and the
    value [distinctUntilChanged] emitted last. *)
Definition gate_state : Type := latest * option bool.

Definition gate_start : gate_state := (no_values, None).

(** [active$] from a given state of the gate. *)
Definition active_from (g : gate_state) (ins : list gate_input) : list bool :=
  filter (λ a, a = true)
    (Rx.distinctUntilChanged_from (snd g)
       (map combined (combineLatest_from (fst g) ins))).

(** [active$]: the emissions of the gate for the inputs [ins]. *)
Definition active (ins : list gate_input) : list bool :=
  active_from gate_start ins.

(** What [distinctUntilChanged] lets through, before [filter]. *)
Definition changes_of (ins : list gate_input) : list bool :=
  Rx.distinctUntilChanged (map combined (combineLatest ins)).

(** One input through the gate: the new state and whether [active$] emits. *)
Definition gate_step (g : gate_state) (i : gate_input) : gate_state * bool :=
  let l := update i (fst g) in
  match values l with
  | None => ((l, snd g), false)
  | Some v =>
      if decide (snd g = Some (combined v)) then ((l, snd g), false)
      else ((l, Some (combined v)), combined v)
  end.

(** The latest values after the inputs [ins]. *)
Definition latest_after (l : latest) (ins : list gate_input) : latest :=
  fold_left (λ l i, update i l) ins l.

(** The gate as the specification words it, to compare [active$] with.
    The value a source has emitted last is the last of its values among the
    inputs; the level of the gate after some inputs is
    [(focus OR hover) AND enabled] of these values, once each of the three
    sources has emitted. *)
Definition focus_of (i : gate_input) : option bool :=
  match i with Focus b => Some b | _ => None end.

Definition hover_of (i : gate_input) : option bool :=
  match i with Hover b => Some b | _ => None end.

Definition enabled_of (i : gate_input) : option bool :=
  match i with Enabled b => Some b | _ => None end.

Definition last_of (source : gate_input → option bool) (ins : list gate_input)
    : option bool :=
  last (omap source ins).

Definition level (ins : list gate_input) : option bool :=
  f ← last_of focus_of ins;
  h ← last_of hover_of ins;
  e ← last_of enabled_of ins;
  Some ((f || h) && e).

(** The rising edges of a signal that was [prev] before. *)
Fixpoint rising_edges (prev : bool) (signal : list bool) : nat :=
  match signal with
  | [] => 0
  | x :: rest => (if x && negb prev then 1 else 0) + rising_edges x rest
  end.

(* ------------------------------------------------------------------------- *)
(** * Preview pipeline                                                        *)
(* ------------------------------------------------------------------------- *)

Module Pipeline.

(** A parsed URL ([new URL(el.href)]): everything before the query, the
    query ([""] or ["?..."]) and the fragment ([""] or ["#..."]). *)
Record URL : Type := Url {
  location : string;
  search : string;
  hash : string
}.

(** [`${url}`]. *)
Definition toString (url : URL) : string :=
  location url +:+ search url +:+ hash url.

(** [url.search = url.hash = ""]. *)
Definition clear_search_hash (url : URL) : URL := Url (location url) "" "".

(** [el.hash.slice(1)]. *)
Definition slice1 (s : string) : string :=
  match s with "" => "" | String _ rest => rest end.

(** The selector of the target element, [None] when [decodeURIComponent]
    throws: the decoded fragment is pasted into the selector as it is. *)
Definition target_selector `{Environment} (href : URL) : option selector :=
  if truthy (hash href)
  then id ← decodeURIComponent (slice1 (hash href)); Some (ArticleId id)
  else Some ArticleH1.

(** Modelled from the spec: the collaborators of [mountLink] that are not
    part of [index.ts] ([watchElementFocus], [watchElementHover],
    [sitemap$], [requestHTML] and [mountTooltip2]) act through events.  The
    focus and hover watchers and the sitemap emit values; the fetch
    collaborator returns the parsed document of the pending request; the
    tooltip collaborator is handed [content$], subscribes to it when it
    sees fit and as often as it sees fit, and unsubscribes from the
    subscriptions it holds, one at a time, the one it has held longest
    first; when the pipeline unsubscribes from the tooltip, the tooltip
    unsubscribes from all of them.  A request that fails and the
    unsubscription from the component itself are left out.

    What happens to the link, seen from [mountLink]:
    - a source of the gate emits;
    - [sitemap$] emits;
    - the pending [requestHTML] emits the parsed document;
    - the tooltip subscribes to [content$], or unsubscribes from it. *)
Inductive event : Type :=
| GateInput (i : gate_input)
| SitemapEmits (sitemap : gset string)
| Response (doc : node)
| TooltipShows
| TooltipHides.

(** What the pipeline does, each with the number of the run that does it:
    - [Requested]: [requestHTML(url)] is subscribed to;
    - [Cancelled]: the pending request is unsubscribed from;
    - [Mounted]: [mountTooltip2] is subscribed to with the [content$] of
      the elements;
    - [Inserted]: [document.body.append(node)];
    - [Removed]: [node.remove()]. *)
Inductive effect : Type :=
| Requested (run : nat) (url : string)
| Cancelled (run : nat)
| Mounted (run : nat) (els : list node)
| Inserted (run : nat) (overlay : node)
| Removed (run : nat) (overlay : node).

(** An overlay node in [document.body]; [serial] tells two renderings of
    the same elements apart. *)
Record overlay : Type := Overlay {
  serial : nat;
  owner : nat;
  rendered : node
}.

(** The inner subscription of the last [switchMap]: the run it belongs to,
    the elements of its [content$], and the overlays of the subscriptions to
    [content$] the tooltip holds, oldest first. *)
Record tooltip : Type := Tooltip {
  tooltip_run : nat;
  tooltip_els : list node;
  content : list overlay
}.

(** The state of the observable [mountLink] returns, once subscribed to:
    - [gate]: the state of [active$];
    - [sitemaps], [actives]: the buffers of [zip] (the values of [active$]
      are all [true], so their number is kept);
    - [runs]: the pairs [zip] has emitted;
    - [request]: the inner subscription of the second [switchMap], a pending
      [requestHTML] with its run and URL;
    - [mounted]: the inner subscription of the last [switchMap];
    - [body]: the overlays in [document.body];
    - [serials]: the overlays rendered so far;
    - [sequence]: the module variable;
    - [failed]: an error has gone through the pipeline, and everything is
      unsubscribed;
    - [effects]: what the pipeline has done, oldest first. *)
Record state : Type := State {
  gate : gate_state;
  sitemaps : list (gset string);
  actives : nat;
  runs : nat;
  request : option (nat * string);
  mounted : option tooltip;
  body : list overlay;
  serials : nat;
  sequence : nat;
  failed : bool;
  effects : list effect
}.

Definition initial (sequence : nat) : state :=
  State gate_start [] 0 0 None None [] 0 sequence false [].

Definition set_gate (g : gate_state) (st : state) : state :=
  State g (sitemaps st) (actives st) (runs st) (request st) (mounted st)
        (body st) (serials st) (sequence st) (failed st) (effects st).

Definition set_zip (s : list (gset string)) (a : nat) (st : state) : state :=
  State (gate st) s a (runs st) (request st) (mounted st)
        (body st) (serials st) (sequence st) (failed st) (effects st).

Definition set_runs (r : nat) (st : state) : state :=
  State (gate st) (sitemaps st) (actives st) r (request st) (mounted st)
        (body st) (serials st) (sequence st) (failed st) (effects st).

Definition set_request (r : option (nat * string)) (st : state) : state :=
  State (gate st) (sitemaps st) (actives st) (runs st) r (mounted st)
        (body st) (serials st) (sequence st) (failed st) (effects st).

Definition set_mounted (m : option tooltip) (st : state) : state :=
  State (gate st) (sitemaps st) (actives st) (runs st) (request st) m
        (body st) (serials st) (sequence st) (failed st) (effects st).

Definition set_body (b : list overlay) (n : nat) (st : state) : state :=
  State (gate st) (sitemaps st) (actives st) (runs st) (request st) (mounted st)
        b n (sequence st) (failed st) (effects st).

Definition set_sequence (n : nat) (st : state) : state :=
  State (gate st) (sitemaps st) (actives st) (runs st) (request st) (mounted st)
        (body st) (serials st) n (failed st) (effects st).

Definition set_failed (st : state) : state :=
  State (gate st) (sitemaps st) (actives st) (runs st) (request st) (mounted st)
        (body st) (serials st) (sequence st) true (effects st).

Definition log (es : list effect) (st : state) : state :=
  State (gate st) (sitemaps st) (actives st) (runs st) (request st) (mounted st)
        (body st) (serials st) (sequence st) (failed st) (effects st ++ es).

(** [node.remove()]. *)
Definition remove_overlay (o : overlay) (b : list overlay) : list overlay :=
  filter (λ o', serial o' ≠ serial o) b.

(** The teardown of a subscription to [content$]: [() => node.remove()],
    here for the subscription held longest. *)
Definition unsubscribe_content (st : state) : state :=
  match mounted st with
  | Some (Tooltip run els (o :: held)) =>
      log [Removed run (rendered o)]
        (set_body (remove_overlay o (body st)) (serials st)
           (set_mounted (Some (Tooltip run els held)) st))
  | _ => st
  end.

(** The subscriber function of [content$]: render, emit, append.  It runs
    for every subscription, whether or not another is held. *)
Definition subscribe_content `{Environment} (st : state) : state :=
  match mounted st with
  | Some (Tooltip run els held) =>
      let o := Overlay (serials st) run (renderTooltip2 els) in
      log [Inserted run (rendered o)]
        (set_body (body st ++ [o]) (S (serials st))
           (set_mounted (Some (Tooltip run els (held ++ [o]))) st))
  | None => st
  end.

(** The last [switchMap] unsubscribes from its inner subscription, and with
    it from every subscription to [content$] the tooltip holds: each
    teardown removes its node. *)
Definition unmount (st : state) : state :=
  match mounted st with
  | Some (Tooltip run els held) =>
      log ((λ o, Removed run (rendered o)) <$> held)
        (set_body (foldl (λ b o, remove_overlay o b) (body st) held) (serials st)
           (set_mounted None st))
  | None => st
  end.

(** The last [switchMap] on a value [els]: the previous tooltip is
    unsubscribed from, then [mountTooltip2] is subscribed to. *)
Definition mount (run : nat) (els : list node) (st : state) : state :=
  log [Mounted run els] (set_mounted (Some (Tooltip run els [])) (unmount st)).

(** An exception in a project function is an error of the observable: every
    subscription of the pipeline is released. *)
Definition fail (st : state) : state :=
  set_failed (set_request None (unmount st)).

Section Link.
Context `{Environment} (el : URL).

(** The first two [switchMap]s on a pair of [zip]: the membership check,
    then the request for the normalized URL, which replaces the pending
    one. *)
Definition start_run (sitemap : gset string) (st : state) : state :=
  let run := runs st in
  let st := set_runs (S run) st in
  let url := toString (clear_search_hash el) in
  if bool_decide (url ∈ sitemap) then
    log (match request st with
         | Some (previous, _) => [Cancelled previous; Requested run url]
         | None => [Requested run url]
         end)
      (set_request (Some (run, url)) st)
  else st.

(** [zip([sitemap$, active$])]: a value waits in its buffer until the other
    source has one to pair it with. *)
Definition on_sitemap (sitemap : gset string) (st : state) : state :=
  match actives st with
  | 0 => set_zip (sitemaps st ++ [sitemap]) 0 st
  | S waiting => start_run sitemap (set_zip (sitemaps st) waiting st)
  end.

Definition on_active (st : state) : state :=
  match sitemaps st with
  | [] => set_zip [] (S (actives st)) st
  | sitemap :: waiting => start_run sitemap (set_zip waiting (actives st) st)
  end.

(** The third [switchMap] on the resolved document. *)
Definition on_document (run : nat) (doc : node) (st : state) : state :=
  match target_selector el with
  | None => fail st
  | Some sel =>
      if selector_throws sel then fail st
      else
        match getOptionalElement sel doc with
        | None => st
        | Some target =>
            match extract target with
            | None => fail st
            | Some els => if length els =? 1 then st else mount run els st
            end
        end
  end.

(** The pending request emits the document and completes; [resolve] runs on
    it with the requested URL as base. *)
Definition on_response (doc : node) (st : state) : state :=
  match request st with
  | None => st
  | Some (run, url) =>
      let st := set_request None st in
      match resolve doc url (sequence st) with
      | None => fail st
      | Some (doc', sequence') => on_document run doc' (set_sequence sequence' st)
      end
  end.

Definition step (st : state) (e : event) : state :=
  if failed st then st
  else
    match e with
    | GateInput i =>
        let '(g, emits) := gate_step (gate st) i in
        if emits then on_active (set_gate g st) else set_gate g st
    | SitemapEmits sitemap => on_sitemap sitemap st
    | Response doc => on_response doc st
    | TooltipShows => subscribe_content st
    | TooltipHides => unsubscribe_content st
    end.

Definition run (events : list event) (st : state) : state :=
  fold_left step events st.

End Link.

(** The link element and the window, as the guards of [mountLink] look at
    them: [el instanceof HTMLAnchorElement],
    [el.hasAttribute("data-preview")], [el.title], [el.href],
    [new URL(el.href)] and its [host]; and
    [window.matchMedia("(hover: hover)").matches],
    [feature("navigation.instant.preview")] and [location.host]. *)
Record link : Type := Link {
  is_HTMLAnchorElement : bool;
  has_data_preview : bool;
  link_title : string;
  link_href : string;
  link_url : URL;
  link_host : string
}.

Record window : Type := Window {
  hover_matches : bool;
  feature_instant_preview : bool;
  location_host : string
}.

(** [mountLink(el, dependencies)], subscribed to: [None] where it returns
    [EMPTY], and otherwise the pipeline at its start, which [step] takes
    through the events of the link [link_url el]. *)
Definition mountLink (w : window) (el : link) (sequence : nat) : option state :=
  if negb (is_HTMLAnchorElement el) then None
  else if negb (hover_matches w) then None
  else if negb (feature_instant_preview w || has_data_preview el) then None
  else if truthy (link_title el) then None
  else if negb (truthy (link_href el))
          || negb (bool_decide (link_host el = location_host w)) then None
  else Some (initial sequence).

(** The pair [zip] emits at an event, if it emits one: a sitemap that
    arrives while an activation waits, or the sitemap that waited longest
    when the gate emits.  A run starts at these events and at no other. *)
Definition zipped (st : state) (e : event) : option (gset string) :=
  if failed st then None
  else
    match e with
    | SitemapEmits sitemap =>
        match actives st with 0 => None | S _ => Some sitemap end
    | GateInput i =>
        if snd (gate_step (gate st) i) then head (sitemaps st) else None
    | _ => None
    end.


Definition sitemap_emissions (events : list event) : list (gset string) :=
  omap (λ e, match e with SitemapEmits s => Some s | _ => None end) events.

(** The run an effect belongs to. *)
Definition effect_run (e : effect) : nat :=
  match e with
  | Requested r _ | Cancelled r | Mounted r _ | Inserted r _ | Removed r _ => r
  end.

(** The overlays inserted and removed so far. *)
Definition is_insertion (e : effect) : bool :=
  match e with Inserted _ _ => true | _ => false end.

Definition is_removal (e : effect) : bool :=
  match e with Removed _ _ => true | _ => false end.

Definition insertions (es : list effect) : nat :=
  length (filter (λ e, is_insertion e = true) es).

Definition removals (es : list effect) : nat :=
  length (filter (λ e, is_removal e = true) es).

(** The run of the pending request and of the mounted tooltip. *)
Definition requesting (st : state) : option nat := fst <$> request st.

Definition showing (st : state) : option nat := tooltip_run <$> mounted st.

(** The overlays of the subscriptions to [content$] that are held. *)
Definition held (st : state) : list overlay :=
  from_option content [] (mounted st).

(** What holds of every state the pipeline reaches:
    - every effect belongs to a run that has started;
    - the run of the pending request has started, and has neither been
      cancelled nor mounted a tooltip;
    - the mounted tooltip is that of a [Mounted] effect;
    - an overlay is inserted only by a run that has mounted a tooltip;
    - a run that has mounted a tooltip was not cancelled;
    - the body holds the overlays of the subscriptions to [content$] the
      mounted tooltip holds, and no other;
    - as many overlays have been inserted as have been removed or are in the
      body;
    - after a failure nothing is pending or mounted;
    - the overlays in the body were rendered one after the other. *)
Record consistent (st : state) : Prop := Consistent {
  effects_started : Forall (λ e, effect_run e < runs st) (effects st);
  request_fresh : ∀ r u, request st = Some (r, u) →
    r < runs st ∧ (Cancelled r ∉ effects st) ∧ (∀ els, Mounted r els ∉ effects st);
  mounted_logged : ∀ t, mounted st = Some t →
    Mounted (tooltip_run t) (tooltip_els t) ∈ effects st;
  inserted_mounted : ∀ r o, Inserted r o ∈ effects st →
    ∃ els, Mounted r els ∈ effects st;
  mounted_not_cancelled : ∀ r els, Mounted r els ∈ effects st →
    Cancelled r ∉ effects st;
  body_content : body st = held st;
  body_balance : insertions (effects st) = removals (effects st) + length (body st);
  failed_released : failed st = true → request st = None ∧ mounted st = None;
  body_serials : Forall (λ o, serial o < serials st) (body st);
  body_distinct : NoDup (serial <$> body st)
}.

(** A run that is neither pending nor mounted. *)
Definition retired (k : nat) (st : state) : Prop :=
  k < runs st ∧ requesting st ≠ Some k ∧ showing st ≠ Some k.

(** From [st] to [st'] the pipeline has done nothing for the run [k], and
    [k] is retired in [st']. *)
Definition without (k : nat) (st st' : state) : Prop :=
  retired k st'
  ∧ ∃ new, effects st' = effects st ++ new
           ∧ Forall (λ e, effect_run e ≠ k) new.



End Pipeline.

(* ------------------------------------------------------------------------- *)
(** * Notions the further properties are stated with                          *)
(* ------------------------------------------------------------------------- *)

(** A string of ASCII letters: what [[a-z]+] matches under the [i] flag,
    when it is not empty. *)
Fixpoint letters (s : string) : bool :=
  match s with
  | "" => true
  | String c rest => is_letter c && letters rest
  end.

Section Trace.
Import Pipeline.
Context `{Environment}.

(** What the effects logged before it say of an effect of the link whose
    URL, up to the query, is [url]:
    - a request is for [url], and is the first effect of its run, all
      effects before it being those of earlier runs;
    - a cancelled run was requested;
    - a run that mounts a tooltip was requested and has mounted none before;
      the elements are a new [h3] without attributes and one element or
      more after it;
    - an overlay inserted is the rendering of the elements its run has
      mounted;
    - an overlay removed was inserted by the same run. *)
Definition justified (url : string) (earlier : list effect) (e : effect) : Prop :=
  match e with
  | Requested r u => u = url ∧ Forall (λ x, effect_run x < r) earlier
  | Cancelled r => ∃ u, Requested r u ∈ earlier
  | Mounted r els =>
      (∃ u, Requested r u ∈ earlier)
      ∧ (∀ els', Mounted r els' ∉ earlier)
      ∧ ∃ heading rest,
          els = heading :: rest
          ∧ tagName heading = "h3" ∧ attributes heading = ∅
          ∧ rest ≠ [] ∧ Forall (λ n, is_element n = true) rest
  | Inserted r o => ∃ els, Mounted r els ∈ earlier ∧ o = renderTooltip2 els
  | Removed r o => Inserted r o ∈ earlier
  end.

(** Every effect of the list is justified by those before it. *)
Definition traced (url : string) (es : list effect) : Prop :=
  ∀ earlier e later, es = earlier ++ e :: later → justified url earlier e.

(** The effects are traced, and the pending request and the mounted tooltip
    are those the effects tell of. *)
Definition accounted (url : string) (st : state) : Prop :=
  traced url (effects st)
  ∧ (∀ r u, request st = Some (r, u) → Requested r u ∈ effects st)
  ∧ (∀ t, mounted st = Some t →
       Mounted (tooltip_run t) (tooltip_els t) ∈ effects st
       ∧ ∀ o, o ∈ content t →
              rendered o = renderTooltip2 (tooltip_els t)
              ∧ Inserted (tooltip_run t) (rendered o) ∈ effects st).

(** The tooltip subscribes to [content$] only while it holds no
    subscription to it: what is assumed of [mountTooltip2] where an overlay
    is said to be the only one. *)
Definition subscribes_once (el : URL) (sequence : nat) (events : list event)
    : Prop :=
  ∀ earlier later,
    events = earlier ++ TooltipShows :: later →
    held (run el earlier (initial sequence)) = [].

(** Nothing has happened and nothing is pending. *)
Definition silent (st : state) : Prop :=
  effects st = [] ∧ request st = None ∧ mounted st = None ∧ body st = []
  ∧ failed st = false.

End Trace.

(* ------------------------------------------------------------------------- *)
(** * Sample data                                                             *)
(* ------------------------------------------------------------------------- *)

Module Sample.
Import Pipeline.

(** An environment for the examples: a relative value is appended to the
    base (which the examples end in [/]), an absolute one is kept;
    [decodeURIComponent] finds nothing to decode; the headlines hold text,
    which the parser gives back as it was; every selector with a quote in
    it is rejected; the overlay is a [div] around the elements. *)
#[local] Instance env : Environment := {|
  new_URL value base :=
    Some (if is_absolute value then value else base +:+ value);
  decodeURIComponent s := Some s;
  copy_innerHTML _ source := childNodes source;
  querySelector_quoted _ := None;
  renderTooltip2 els := Elem "div" {[ "class" := "md-tooltip2" ]} els
|}.

Definition el (tag : string) (attrs : list (string * string))
    (children : list node) : node :=
  Elem tag (list_to_map attrs) children.

(** [<h2 id="install">Install</h2><p>Steps</p><h2 id="next">Next</h2>]
    inside [html > body > article]. *)
Definition guide : node :=
  el "html" []
    [el "body" []
       [el "article" []
          [el "h2" [("id", "install")] [Text "Install"];
           el "p" [] [Text "Steps"];
           el "h2" [("id", "next")] [Text "Next"]]]].

Definition guide_url : URL := Url "https://example.com/guide/" "" "#install".

Definition guide_sitemap : gset string := {[ "https://example.com/guide/" ]}.

(** A heading inside a [.doc] block of mkdocstrings, a paragraph after the
    block, and a contents block after the paragraph:
    [<div class="doc"><h2 id="f">f</h2></div><p>Note</p>
     <div class="doc-contents">Body</div>]. *)
Definition note : node := el "p" [] [Text "Note"].
Definition contents : node := el "div" [("class", "doc-contents")] [Text "Body"].
Definition signature : node := el "div" [("class", "doc-signature")] [Text "f()"].

Definition gap_heading : position :=
  Position (el "h2" [("id", "f")] [Text "f"]) [] []
    [Frame "div" (list_to_map [("class", "doc")]) [] [note; contents];
     Frame "article" ∅ [] [];
     Frame "body" ∅ [] [];
     Frame "html" ∅ [] []].

Definition gap_document : node :=
  el "html" []
    [el "body" []
       [el "article" []
          [el "div" [("class", "doc")] [el "h2" [("id", "f")] [Text "f"]];
           note; contents]]].

(** The same block followed at once by its signature and contents, then
    the paragraph and a second contents block. *)
Definition block_heading : position :=
  Position (el "h2" [("id", "f")] [Text "f"]) [] []
    [Frame "div" (list_to_map [("class", "doc")]) []
       [Text " "; signature; contents; note; contents];
     Frame "article" ∅ [] []].

(** A bare anchor inside a [.doc] block, followed by the paragraph:
    [<div class="doc"><a id="f"></a></div><p>Note</p>]. *)
Definition anchor_in_doc : position :=
  Position (el "a" [("id", "f")] []) [] []
    [Frame "div" (list_to_map [("class", "doc")]) [] [note];
     Frame "article" ∅ [] []].

(** A heading followed at once by the next heading. *)
Definition empty_section : position :=
  Position (el "h2" [("id", "install")] [Text "Install"]) []
    [Text " "; el "h2" [("id", "next")] [Text "Next"]; note]
    [Frame "article" ∅ [] []; Frame "body" ∅ [] []; Frame "html" ∅ [] []].

Definition empty_section_document : node :=
  el "html" []
    [el "body" []
       [el "article" []
          [el "h2" [("id", "install")] [Text "Install"];
           Text " "; el "h2" [("id", "next")] [Text "Next"]; note]]].

(** Content tabs, whose identifiers [resolve] has to keep apart from those
    of the host page:
    [<input name="__tabbed_1" id="__tabbed_1_1" type="radio">
     <label for="__tabbed_1_1">Tab</label>]. *)
Definition tabs : node :=
  el "div" [("class", "tabbed-set")]
    [el "input" [("name", "__tabbed_1"); ("id", "__tabbed_1_1"); ("type", "radio")] [];
     el "label" [("for", "__tabbed_1_1")] [Text "Tab"]].

(** The same tabs after [resolve] at [sequence = 7]. *)
Definition tabs_once : node :=
  el "div" [("class", "tabbed-set")]
    [el "input" [("name", "__tabbed_1$preview_7");
                 ("id", "__tabbed_1_1$preview_7"); ("type", "radio")] [];
     el "label" [("for", "__tabbed_1_1$preview_7")] [Text "Tab"]].

(** A field that its label names by [id], the field having no [name]:
    [<p><input id="q"><label for="q">Query</label></p>]. *)
Definition field : node :=
  el "p" []
    [el "input" [("id", "q")] [];
     el "label" [("for", "q")] [Text "Query"]].

(** The link is hovered, left while the request is pending, and hovered
    again after the response; the sitemap has emitted once. *)
Definition hover_leave_hover : list event :=
  [SitemapEmits guide_sitemap;
   GateInput (Enabled true); GateInput (Focus false); GateInput (Hover false);
   GateInput (Hover true);
   GateInput (Hover false);
   Response guide;
   GateInput (Hover true);
   TooltipShows].

End Sample.

(* ------------------------------------------------------------------------- *)
(** * Properties of the operators                                             *)
(* ------------------------------------------------------------------------- *)

Section OperatorFacts.
Context {A : Type} `{EqDecision A}.
Implicit Types (prev : option A) (xs : list A).

Lemma distinct_no_repeats prev xs :
  Rx.no_repeats_from prev (Rx.distinctUntilChanged_from prev xs).
Proof.
  revert prev. induction xs as [|x xs IH]; intros prev; simpl; [done|].
  destruct (decide (prev = Some x)); simpl; auto.
Qed.

Lemma last_cons_from prev x xs :
  from_option Some prev (last (x :: xs)) = from_option Some (Some x) (last xs).
Proof.
  revert prev x. induction xs as [|y xs IH]; intros prev x; [done|].
  by rewrite last_cons_cons, (IH prev y), (IH (Some x) y).
Qed.

Lemma distinct_app prev xs ys :
  Rx.distinctUntilChanged_from prev (xs ++ ys) =
  Rx.distinctUntilChanged_from prev xs ++
  Rx.distinctUntilChanged_from (from_option Some prev (last xs)) ys.
Proof.
  revert prev. induction xs as [|x xs IH]; intros prev; simpl; [done|].
  rewrite last_cons_from.
  destruct (decide (prev = Some x)) as [->|Hne]; simpl; by rewrite IH.
Qed.

(** The value emitted last is the last value of the source. *)
Lemma distinct_last prev xs :
  from_option Some prev (last (Rx.distinctUntilChanged_from prev xs)) =
  from_option Some prev (last xs).
Proof.
  revert prev. induction xs as [|x xs IH]; intros prev; simpl; [done|].
  rewrite last_cons_from.
  destruct (decide (prev = Some x)) as [->|Hne].
  - by rewrite IH.
  - by rewrite last_cons_from, IH.
Qed.

End OperatorFacts.

(* ------------------------------------------------------------------------- *)
(** * Properties of the activation gate                                       *)
(* ------------------------------------------------------------------------- *)

Lemma combineLatest_from_snoc l ins i :
  combineLatest_from l (ins ++ [i]) =
  combineLatest_from l ins ++ option_list (values (latest_after l (ins ++ [i]))).
Proof.
  revert l. induction ins as [|j ins IH]; intros l; simpl.
  - by destruct (values (update i l)).
  - rewrite IH. unfold latest_after. simpl.
    by destruct (values (update j l)).
Qed.

Lemma rising_edges_distinct (prev : option bool) (xs : list bool) :
  length (filter (λ a, a = true) (Rx.distinctUntilChanged_from prev xs)) =
  rising_edges (default false prev) xs.
Proof.
  revert prev. induction xs as [|x xs IH]; intros prev; simpl; [done|].
  destruct (decide (prev = Some x)) as [->|Hne].
  - rewrite IH. simpl. by destruct x.
  - rewrite filter_cons. destruct (decide (x = true)) as [->|Hx]; simpl.
    + rewrite IH. simpl. destruct prev as [[]|]; simpl; congruence.
    + rewrite IH. simpl. by destruct x.
Qed.


Lemma last_of_snoc (source : gate_input → option bool) (ins : list gate_input)
    (i : gate_input) :
  last_of source (ins ++ [i]) =
  match source i with Some b => Some b | None => last_of source ins end.
Proof.
  unfold last_of. rewrite omap_app. simpl.
  destruct (source i) as [b|]; [apply last_snoc|by rewrite app_nil_r].
Qed.

(** The latest values the gate keeps are the values the sources have
    emitted last. *)
Lemma latest_after_last (ins : list gate_input) :
  latest_after no_values ins =
  Latest (last_of focus_of ins) (last_of hover_of ins) (last_of enabled_of ins).
Proof.
  induction ins as [|i ins IH] using rev_ind; [done|].
  unfold latest_after in *. rewrite fold_left_app. simpl. rewrite IH.
  rewrite !last_of_snoc. by destruct i.
Qed.

Lemma values_level (ins : list gate_input) :
  combined <$> values (latest_after no_values ins) = level ins.
Proof.
  rewrite latest_after_last. unfold values, level. simpl.
  by destruct (last_of focus_of ins), (last_of hover_of ins),
       (last_of enabled_of ins).
Qed.

Lemma combined_snoc (ins : list gate_input) (i : gate_input) :
  map combined (combineLatest (ins ++ [i])) =
  map combined (combineLatest ins) ++ option_list (level (ins ++ [i])).
Proof.
  unfold combineLatest. rewrite combineLatest_from_snoc, map_app. f_equal.
  rewrite <- values_level.
  by destruct (values (latest_after no_values (ins ++ [i]))).
Qed.

(** C5. The activation gate.  For every sequence of focus, hover and
    preference inputs:
    - the combined signal starts empty, and each input adds to it the level
      of the gate after that input, [(focus || hover) && enabled] of the
      values the three sources have emitted last, and adds nothing while
      one of them has not emitted;
    - [active$] emits at an input exactly if the level after it is [true]
      and the combined signal was not [true] before: it emits [true] then,
      and nothing otherwise;
    - what [distinctUntilChanged] lets through has no two equal neighbours,
      and the value it let through last is the current combined value;
    - every value [active$] emits is [true], and it emits once for every
      rising edge of the combined signal: a change to [false] emits
      nothing. *)
Theorem gate_emits_rising_edges (ins : list gate_input) :
  map combined (combineLatest []) = []
  ∧ (∀ i,
       map combined (combineLatest (ins ++ [i])) =
       map combined (combineLatest ins) ++ option_list (level (ins ++ [i])))
  ∧ active [] = []
  ∧ (∀ i,
       active (ins ++ [i]) =
       active ins ++
       if decide (level (ins ++ [i]) = Some true
                  ∧ last (map combined (combineLatest ins)) ≠ Some true)
       then [true] else [])
  ∧ Rx.no_repeats_from None (changes_of ins)
  ∧ last (changes_of ins) = last (map combined (combineLatest ins))
  ∧ Forall (λ a, a = true) (active ins)
  ∧ length (active ins) = rising_edges false (map combined (combineLatest ins)).
Proof.
  split_and!.
  - done.
  - apply combined_snoc.
  - done.
  - intros i. unfold active, active_from. simpl.
    fold (combineLatest (ins ++ [i])) (combineLatest ins).
    rewrite combined_snoc, distinct_app, filter_app. f_equal.
    set (previous := last (map combined (combineLatest ins))).
    assert (from_option Some None previous = previous) as ->
      by by destruct previous.
    destruct (level (ins ++ [i])) as [[|]|]; simpl.
    + destruct (decide (previous = Some true)) as [Hp|Hp].
      * rewrite decide_False; [done|]. by intros [_ ?].
      * by rewrite decide_True.
    + by destruct (decide (previous = Some false)).
    + done.
  - apply distinct_no_repeats.
  - pose proof (distinct_last None (map combined (combineLatest ins))) as Hl.
    unfold changes_of, Rx.distinctUntilChanged.
    by destruct (last (Rx.distinctUntilChanged_from _ _)), (last (map _ _)).
  - unfold active, active_from. apply Forall_forall.
    intros a Ha. by apply list_elem_of_filter in Ha as [? _].
  - unfold active, active_from. apply (rising_edges_distinct None).
Qed.

(** The example of the specification: hover goes up, down and up again. *)
Example gate_hover_twice :
  active [Focus false; Hover false; Enabled true;
          Hover true; Hover true; Hover false; Hover true] = [true; true].
Proof. reflexivity. Qed.

(* ------------------------------------------------------------------------- *)
(** * Properties of the preference store                                      *)
(* ------------------------------------------------------------------------- *)

Lemma distinct_head {A} `{EqDecision A} (x : A) (xs : list A) :
  head (Rx.distinctUntilChanged (x :: xs)) = Some x.
Proof.
  unfold Rx.distinctUntilChanged. simpl.
  by destruct (decide (None = Some x)).
Qed.

Lemma distinct_replayed {A} `{EqDecision A} (x : A) (xs : list A) :
  Rx.replayed (Rx.distinctUntilChanged (x :: xs)) = Some (default x (last xs)).
Proof.
  unfold Rx.replayed.
  pose proof (distinct_last None (x :: xs)) as Hl.
  rewrite last_cons_from in Hl. fold (Rx.distinctUntilChanged (x :: xs)) in Hl.
  destruct (last (Rx.distinctUntilChanged (x :: xs))), (last xs);
    simpl in *; congruence.
Qed.

(** C8, as the code has it.  With the toggle form in the page, the signal
    starts with the stored preference, or [true] when none is stored; its
    current value is that of the last [change] event, [true] exactly for the
    value ["on"]; a [change] event adds its value to the signal unless it is
    the current one, so no two neighbours are equal.  Without the form the
    signal is the single value [true], whatever is stored. *)
Theorem preference_signal (stored : gmap string bool)
    (calls : list (string * bool)) (marker : option string)
    (ins : list input) (changes : list string) :
  let with_form := Page true stored calls marker ins in
  let without_form := Page false stored calls marker ins in
  let seed := default true (stored !! "instant.preview") in
  head (instantPreviewEnabled with_form changes) = Some seed
  ∧ Rx.replayed (instantPreviewEnabled with_form changes) =
    Some (default seed ((λ value, bool_decide (value = "on")) <$> last changes))
  ∧ (∀ value,
       instantPreviewEnabled with_form (changes ++ [value]) =
       instantPreviewEnabled with_form changes ++
       (if decide (Rx.replayed (instantPreviewEnabled with_form changes) =
                   Some (bool_decide (value = "on")))
        then [] else [bool_decide (value = "on")]))
  ∧ Rx.no_repeats_from None (instantPreviewEnabled with_form changes)
  ∧ instantPreviewEnabled without_form changes = [true].
Proof.
  intros with_form without_form seed.
  unfold instantPreviewEnabled, Rx.startWith, md_get.
  cbn [toggle storage negb with_form without_form]. fold seed.
  split; [|split; [|split; [|split]]].
  - apply distinct_head.
  - rewrite distinct_replayed. f_equal.
    rewrite <-fmap_last. by destruct (last changes).
  - intros value.
    set (xs := map _ changes).
    unfold Rx.distinctUntilChanged, Rx.replayed.
    rewrite map_app. fold xs. simpl map.
    change (seed :: xs ++ [bool_decide (value = "on")])
      with ((seed :: xs) ++ [bool_decide (value = "on")]).
    rewrite (distinct_app None (seed :: xs) [bool_decide (value = "on")]).
    f_equal.
    pose proof (distinct_last None (seed :: xs)) as Hl.
    destruct (last (seed :: xs)) as [y|] eqn:Hy; [|by apply last_None in Hy].
    destruct (last (Rx.distinctUntilChanged_from None (seed :: xs))) as [z|];
      cbn [from_option] in Hl; [|done].
    injection Hl as ->.
    cbn [from_option Rx.distinctUntilChanged_from].
    by repeat case_decide.
  - apply distinct_no_repeats.
  - done.
Qed.

(** C8, as stated, fails without the toggle form: the stored preference
    [false] is not read, the signal is [true], and the subscriber stores
    that. *)
Lemma preference_not_seeded_without_form :
  let p := Page false {[ "instant.preview" := false ]} [] None [] in
  md_get "instant.preview" p = Some false
  ∧ instantPreviewEnabled p [] = [true]
  ∧ md_get "instant.preview" (subscribed (instantPreviewEnabled p []) p)
    = Some true.
Proof. split_and!; reflexivity. Qed.

Lemma subscriber_storage (value : bool) (p : page) :
  storage (subscriber value p) !! "instant.preview" = Some value.
Proof.
  unfold subscriber. destruct (list_find _ _) as [[k i]|];
    cbn [storage md_set]; apply lookup_insert_eq.
Qed.

Lemma subscriber_written (value : bool) (p : page) :
  written (subscriber value p) = written p ++ [("instant.preview", value)].
Proof. unfold subscriber. by destruct (list_find _ _) as [[k i]|]. Qed.

Lemma subscribed_written (emissions : list bool) (p : page) :
  written (subscribed emissions p) =
  written p ++ map (λ v, ("instant.preview", v)) emissions.
Proof.
  revert p. induction emissions as [|v vs IH]; intros p; simpl.
  - by rewrite app_nil_r.
  - unfold subscribed in IH. rewrite IH, subscriber_written.
    by rewrite <-app_assoc.
Qed.

(** What the subscriber makes of the inputs. *)
Lemma subscriber_inputs (value : bool) (p : page) :
  inputs (subscriber value p) =
  match list_find (is_toggle_input (onoff value)) (inputs p) with
  | Some (k, i) => imap (check i k) (inputs p)
  | None => inputs p
  end.
Proof. unfold subscriber. by destruct (list_find _ _) as [[k i]|]. Qed.

(** C10. Every emission of the preference signal is written to the
    storage, mirrored in the data attribute of the body as ["on"] or ["off"],
    and checks the first matching toggle input, if there is one; if that
    input is a radio button, the other buttons of its group are unchecked
    with it, and every other input is left as it is.  The signal emits at
    subscription, so the page after the subscription has one call of
    [__md_set] for every emission, the first of them with the seed, also
    when this is the value the storage held. *)
Theorem subscriber_writes_every_emission (p : page) (changes : list string)
    (value : bool) :
  let p' := subscriber value p in
  let seed := if toggle p then default true (md_get "instant.preview" p)
              else true in
  storage p' !! "instant.preview" = Some value
  ∧ written p' = written p ++ [("instant.preview", value)]
  ∧ instantPreview p' = Some (if value then "on" else "off")
  ∧ match list_find (is_toggle_input (if value then "on" else "off")) (inputs p) with
    | Some (k, i) =>
        inputs p !! k = Some i
        ∧ inputs p' !! k =
          Some (Input "__instant_preview" (input_value i) true (radio_group i))
        ∧ ∀ j other, j ≠ k → inputs p !! j = Some other →
            inputs p' !! j =
            Some (if decide (is_Some (radio_group i)
                             ∧ radio_group other = radio_group i)
                  then Input (input_name other) (input_value other) false
                         (radio_group other)
                  else other)
    | None => inputs p' = inputs p
    end
  ∧ length (inputs p') = length (inputs p)
  ∧ written (subscribed (instantPreviewEnabled p changes) p) =
    written p ++ map (λ v, ("instant.preview", v)) (instantPreviewEnabled p changes)
  ∧ head (instantPreviewEnabled p changes) = Some seed
  ∧ written (subscribed (instantPreviewEnabled p []) p) =
    written p ++ [("instant.preview", seed)]
  ∧ storage (subscribed (instantPreviewEnabled p []) p) !! "instant.preview" =
    Some seed.
Proof.
  intros p' seed.
  assert (instantPreviewEnabled p [] = [seed]) as Hstart.
  { unfold instantPreviewEnabled, seed. by destruct (toggle p). }
  split_and!.
  - apply subscriber_storage.
  - apply subscriber_written.
  - unfold p', subscriber. by destruct (list_find _ _) as [[k i]|].
  - unfold p'. rewrite subscriber_inputs. fold (onoff value).
    destruct (list_find _ _) as [[k i]|] eqn:Hfind; [|done].
    apply list_find_Some in Hfind as (Hk & [Hname _] & _).
    split_and!; [done| |].
    + rewrite list_lookup_imap, Hk. simpl. unfold check.
      by rewrite decide_True, Hname.
    + intros j other Hj Hother. rewrite list_lookup_imap, Hother. simpl.
      unfold check. by rewrite decide_False.
  - unfold p'. rewrite subscriber_inputs.
    destruct (list_find _ _) as [[k i]|]; [apply length_imap|done].
  - apply subscribed_written.
  - unfold instantPreviewEnabled, seed.
    destruct (toggle p); [|done]. apply distinct_head.
  - by rewrite Hstart, subscribed_written.
  - rewrite Hstart. apply subscriber_storage.
Qed.

(** The toggle as the theme has it, two radio buttons of one group: the
    button that is checked takes the check from the other. *)
Example toggle_takes_check :
  let page := Page true ∅ [] None
                [Input "__instant_preview" "on" true (Some 0);
                 Input "__instant_preview" "off" false (Some 0)] in
  inputs (subscriber false page) =
  [Input "__instant_preview" "on" false (Some 0);
   Input "__instant_preview" "off" true (Some 0)].
Proof. vm_compute. reflexivity. Qed.

(* ------------------------------------------------------------------------- *)
(** * Properties of the content extractor                                     *)
(* ------------------------------------------------------------------------- *)

Lemma collect_prefix (predicate : node → bool) (siblings : list node) :
  ∃ rest,
    element_siblings siblings = collect predicate siblings ++ rest
    ∧ Forall (λ n, predicate n = true) (collect predicate siblings)
    ∧ from_option predicate false (head rest) = false.
Proof.
  unfold element_siblings.
  induction siblings as [|[d|t a cs] siblings (rest & Heq & Hall & Hrest)];
    simpl.
  - by exists [].
  - exists rest. by rewrite filter_cons_False.
  - rewrite filter_cons_True by done.
    destruct (predicate (Elem t a cs)) eqn:Hp.
    + exists rest. split_and!; [by rewrite Heq| by constructor | done].
    + eexists. split_and!; [done | constructor | done].
Qed.

Lemma collect_first_rejected (predicate : node → bool) (siblings : list node)
    (el : node) :
  first_element siblings = Some el → predicate el = false →
  collect predicate siblings = [].
Proof.
  induction siblings as [|[d|t a cs] siblings IH]; simpl; [done|done|].
  intros [= <-] Hp. by rewrite Hp.
Qed.

(** The three branches of [extract]. *)
Lemma extract_bare_anchor `{Environment} (headline parent : position) :
  bare_anchor headline = true → parentElement headline = Some parent →
  extract headline =
  Some (newHeading headline :: nextElements headline default_predicate
        ++ nextElements parent default_predicate).
Proof. unfold extract. by intros -> ->. Qed.

Lemma extract_in_doc `{Environment} (headline parent : position) :
  bare_anchor headline = false → parentElement headline = Some parent →
  classList_contains "doc" (element parent) = true →
  extract headline =
  Some (newHeading headline :: nextElements headline default_predicate
        ++ nextElements parent doc_predicate).
Proof. unfold extract. by intros -> -> ->. Qed.

Lemma extract_plain `{Environment} (headline : position) :
  bare_anchor headline = false →
  from_option (λ parent, classList_contains "doc" (element parent)) false
    (parentElement headline) = false →
  extract headline =
  Some (newHeading headline :: nextElements headline default_predicate).
Proof.
  unfold extract. intros ->.
  destruct (parentElement headline) as [parent|]; simpl; [|done].
  by intros ->.
Qed.

Lemma heading_not_anchor (n : node) : is_heading n = true → is_anchor n = false.
Proof.
  unfold is_heading, is_anchor. intros Hh%bool_decide_eq_true.
  apply bool_decide_eq_false. intros Ha. rewrite Ha in Hh.
  rewrite !elem_of_cons, elem_of_nil in Hh. intuition discriminate.
Qed.

(** The sample positions are where [getOptionalElement] finds them. *)
Example gap_heading_found :
  @getOptionalElement Sample.env (ArticleId "f") Sample.gap_document
  = Some Sample.gap_heading.
Proof. vm_compute. reflexivity. Qed.

Example empty_section_found :
  @getOptionalElement Sample.env (ArticleId "install")
    Sample.empty_section_document
  = Some Sample.empty_section.
Proof. vm_compute. reflexivity. Qed.

(** The end-to-end example of the specification. *)
Example extract_guide :
  (target ← @getOptionalElement Sample.env (ArticleId "install") Sample.guide;
   @extract Sample.env target) =
  Some [Sample.el "h3" [] [Text "Install"]; Sample.el "p" [] [Text "Steps"]].
Proof. vm_compute. reflexivity. Qed.

(** C2, as the code has it.  For a headline that is not a bare anchor and
    whose parent has the class [doc], the scan over the siblings after the
    parent ends at the first element that is not a contents or signature
    block, heading or not: what it adds to the result is the longest run of
    such blocks right after the parent, and no later sibling. *)
Theorem doc_scan_ends_at_first_other `{Environment}
    (headline parent : position) :
  bare_anchor headline = false →
  parentElement headline = Some parent →
  classList_contains "doc" (element parent) = true →
  ∃ collected rest,
    extract headline =
    Some (newHeading headline :: nextElements headline default_predicate
          ++ collected)
    ∧ element_siblings (after parent) = collected ++ rest
    ∧ Forall (λ n, doc_predicate n = true) collected
    ∧ from_option doc_predicate false (head rest) = false.
Proof.
  intros Hbare Hparent Hdoc.
  destruct (collect_prefix doc_predicate (after parent))
    as (rest & Heq & Hall & Hrest).
  exists (nextElements parent doc_predicate), rest.
  split_and!; [|done..]. by apply extract_in_doc.
Qed.

Lemma doc_scan_ends_at_first_other_witness :
  ∃ collected rest,
    @extract Sample.env Sample.block_heading =
    Some (@newHeading Sample.env Sample.block_heading
          :: nextElements Sample.block_heading default_predicate ++ collected)
    ∧ element_siblings
        [Text " "; Sample.signature; Sample.contents; Sample.note; Sample.contents]
      = collected ++ rest
    ∧ Forall (λ n, doc_predicate n = true) collected
    ∧ from_option doc_predicate false (head rest) = false.
Proof.
  apply (@doc_scan_ends_at_first_other Sample.env Sample.block_heading
           (Position (Elem "div" (list_to_map [("class", "doc")])
                        [Sample.el "h2" [("id", "f")] [Text "f"]])
              [] [Text " "; Sample.signature; Sample.contents; Sample.note;
                  Sample.contents]
              [Frame "article" ∅ [] []])); reflexivity.
Defined.

(** C2, as stated, fails: a paragraph between the [.doc] block and its
    contents block ends the scan of the code, where the scan of the
    specification skips it. *)
Lemma doc_scan_does_not_skip :
  @extract Sample.env Sample.gap_heading = Some [Sample.el "h3" [] [Text "f"]]
  ∧ skipping_scan [Sample.note; Sample.contents] = [Sample.contents]
  ∧ (parent ← parentElement Sample.gap_heading;
     Some (nextElements parent doc_predicate, skipping_scan (after parent)))
    = Some ([], [Sample.contents]).
Proof. split_and!; vm_compute; reflexivity. Qed.

(** C9, as the code has it.  What [extract] appends from the siblings
    after the parent of the headline:
    - for a bare anchor, whatever the class of the parent: the elements
      right after the parent up to the first heading or [doc] element, and
      none after it;
    - for another headline whose parent has the class [doc]: the contents
      and signature blocks right after the parent, up to the first element
      that is neither, and none after it;
    - for another headline under another parent: nothing. *)
Theorem doc_override_unless_bare_anchor `{Environment}
    (headline parent : position) :
  parentElement headline = Some parent →
  ∃ more rest,
    extract headline =
    Some (newHeading headline :: nextElements headline default_predicate ++ more)
    ∧ if bare_anchor headline then
        element_siblings (after parent) = more ++ rest
        ∧ Forall (λ n, is_heading n = false ∧ classList_contains "doc" n = false)
            more
        ∧ from_option (λ n, is_heading n || classList_contains "doc" n) true
            (head rest) = true
      else if classList_contains "doc" (element parent) then
        element_siblings (after parent) = more ++ rest
        ∧ Forall (λ n, classList_contains "doc-contents" n
                       || classList_contains "doc-signature" n = true) more
        ∧ from_option (λ n, classList_contains "doc-contents" n
                            || classList_contains "doc-signature" n) false
            (head rest) = false
      else more = [].
Proof.
  intros Hparent.
  destruct (bare_anchor headline) eqn:Hbare.
  - destruct (collect_prefix default_predicate (after parent))
      as (rest & Heq & Hall & Hrest).
    exists (nextElements parent default_predicate), rest.
    split_and!; [by apply extract_bare_anchor|done| |].
    + eapply Forall_impl; [exact Hall|]. intros n Hn. simpl in Hn.
      unfold default_predicate in Hn.
      by apply negb_true_iff, orb_false_iff in Hn.
    + destruct rest as [|n rest]; [done|]. simpl in *.
      unfold default_predicate in Hrest. by apply negb_false_iff in Hrest.
  - destruct (classList_contains "doc" (element parent)) eqn:Hdoc.
    + destruct (collect_prefix doc_predicate (after parent))
        as (rest & Heq & Hall & Hrest).
      exists (nextElements parent doc_predicate), rest.
      split_and!; [by apply extract_in_doc|done..].
    + exists [], []. rewrite app_nil_r. split; [|done].
      apply extract_plain; [done|]. by rewrite Hparent.
Qed.

Lemma doc_override_unless_bare_anchor_witness :
  ∃ more rest,
    @extract Sample.env Sample.block_heading =
    Some (@newHeading Sample.env Sample.block_heading
          :: nextElements Sample.block_heading default_predicate ++ more)
    ∧ element_siblings
        [Text " "; Sample.signature; Sample.contents; Sample.note; Sample.contents]
      = more ++ rest
    ∧ Forall (λ n, classList_contains "doc-contents" n
                   || classList_contains "doc-signature" n = true) more
    ∧ from_option (λ n, classList_contains "doc-contents" n
                        || classList_contains "doc-signature" n) false
        (head rest) = false.
Proof.
  exact (@doc_override_unless_bare_anchor Sample.env Sample.block_heading
           (Position (Elem "div" (list_to_map [("class", "doc")])
                        [Sample.el "h2" [("id", "f")] [Text "f"]])
              [] [Text " "; Sample.signature; Sample.contents; Sample.note;
                  Sample.contents]
              [Frame "article" ∅ [] []]) eq_refl).
Defined.

(** C9, as stated, fails for a bare anchor: the paragraph after its [.doc]
    parent, which is no contents or signature block, is in the result. *)
Lemma bare_anchor_in_doc_takes_any_sibling :
  bare_anchor Sample.anchor_in_doc = true
  ∧ (classList_contains "doc" ∘ element <$> parentElement Sample.anchor_in_doc)
    = Some true
  ∧ @extract Sample.env Sample.anchor_in_doc =
    Some [Sample.el "h3" [] []; Sample.note]
  ∧ doc_predicate Sample.note = false.
Proof. split_and!; vm_compute; reflexivity. Qed.

(* ------------------------------------------------------------------------- *)
(** * Properties of the URL resolver                                          *)
(* ------------------------------------------------------------------------- *)

(** Induction on a tree, with the property for all children at hand. *)
Lemma node_children_ind (P : node → Prop) :
  (∀ d, P (Text d)) →
  (∀ t a cs, Forall P cs → P (Elem t a cs)) →
  ∀ n, P n.
Proof.
  intros Htext Helem. fix IH 1. intros [d|t a cs]; [apply Htext|].
  apply Helem. induction cs as [|c cs IHcs]; constructor; [apply IH|apply IHcs].
Qed.

Lemma Forall2_concat_elements (R : node → node → Prop) (f : node → option node)
    (cs cs' : list node) :
  Forall (λ c, ∀ c', f c = Some c' → Forall2 R (elements c) (elements c')) cs →
  Forall2 (λ c c', f c = Some c') cs cs' →
  Forall2 R (concat (map elements cs)) (concat (map elements cs')).
Proof.
  intros Hall Hcs. induction Hcs as [|c c' cs cs' Hc Hcs IH]; simpl; [constructor|].
  apply Forall_cons in Hall as [Hhead Hall].
  apply Forall2_app; auto.
Qed.

(** A loop over the elements changes the attributes of each element by its
    body, and nothing else: the elements of the result are those of the
    tree, in the same order, each with the attributes its body gave it. *)
Lemma for_elements_try_elements
    (body : string → gmap string string → option (gmap string string))
    (n n' : node) :
  for_elements_try body n = Some n' →
  Forall2 (λ e e', tagName e' = tagName e
                   ∧ body (tagName e) (attributes e) = Some (attributes e'))
    (elements n) (elements n').
Proof.
  revert n'. induction n as [d|t a cs IH] using node_children_ind;
    intros n' Hn; simpl in Hn.
  - injection Hn as <-. constructor.
  - destruct (body t a) as [a'|] eqn:Ha; simpl in Hn; [|done].
    destruct (mapM (for_elements_try body) cs) as [cs'|] eqn:Hcs;
      simpl in Hn; [|done].
    injection Hn as <-. simpl. constructor; [done|].
    apply mapM_Some in Hcs. by eapply Forall2_concat_elements.
Qed.

Lemma for_elements_as_try (body : gmap string string → gmap string string)
    (n : node) :
  for_elements_try (λ _ a, Some (body a)) n = Some (for_elements body n).
Proof.
  induction n as [d|t a cs IH] using node_children_ind; simpl; [done|].
  assert (mapM (for_elements_try (λ _ a, Some (body a))) cs
          = Some (map (for_elements body) cs)) as ->; [|done].
  apply mapM_Some. induction IH; constructor; auto.
Qed.

Lemma for_elements_elements (body : gmap string string → gmap string string)
    (n : node) :
  Forall2 (λ e e', tagName e' = tagName e ∧ attributes e' = body (attributes e))
    (elements n) (elements (for_elements body n)).
Proof.
  eapply Forall2_impl;
    [exact (for_elements_try_elements _ _ _ (for_elements_as_try body n))|].
  intros e e' [Ht Ha]. split; [done|]. by injection Ha.
Qed.

Lemma for_elements_try_returns
    (body : string → gmap string string → option (gmap string string))
    (n : node) :
  is_Some (for_elements_try body n) ↔
  Forall (λ e, is_Some (body (tagName e) (attributes e))) (elements n).
Proof.
  induction n as [d|t a cs IH] using node_children_ind; simpl.
  { split; [constructor|by eexists]. }
  rewrite Forall_cons. simpl.
  assert (is_Some (mapM (for_elements_try body) cs) ↔
          Forall (λ e, is_Some (body (tagName e) (attributes e)))
            (concat (map elements cs))) as Hcs.
  { rewrite mapM_is_Some. induction IH as [|c cs Hc _ IHcs]; simpl.
    - split; constructor.
    - rewrite Forall_cons, Forall_app. simpl. by rewrite Hc, IHcs. }
  rewrite <-Hcs. clear Hcs IH.
  destruct (body t a) as [a'|]; simpl.
  - destruct (mapM (for_elements_try body) cs) as [cs'|]; simpl.
    + split; [by split; eexists|by eexists].
    + split; [by intros [? ?]|by intros [_ [? ?]]].
  - split; [by intros [? ?]|by intros [[? ?] _]].
Qed.

Section ResolveFacts.
Context `{Environment}.
Implicit Types (a : gmap string string) (base key : string).

Lemma resolve_elements (document : node) base (sequence : nat) d' s' :
  resolve document base sequence = Some (d', s') →
  s' = S sequence
  ∧ Forall2 (resolved base sequence) (elements document) (elements d').
Proof.
  unfold resolve. intros Hr.
  destruct (for_elements_try (replace_links base) document) as [linked|] eqn:Hl;
    simpl in Hr; [|done].
  injection Hr as <- <-. split; [done|].
  eapply Forall2_trans;
    [|exact (for_elements_try_elements _ _ _ Hl)
     |exact (for_elements_elements (suffix_identifiers sequence) linked)].
  intros e1 e2 e3 [Ht1 Ha1] [Ht2 Ha2]. split; [congruence|]. eauto.
Qed.

(** The first loop, for one element, in one step. *)
Lemma replace_links_first base tag a :
  replace_links base tag a =
  match first_relative a with
  | Some key =>
      value ← a !! key; url ← new_URL value base;
      Some (if reflects tag key then <[key := url]> a else a)
  | None => Some a
  end.
Proof.
  unfold replace_links, has_link, first_relative, relative_at.
  cbn [replace_link].
  destruct (a !! "href") as [h|] eqn:Hh, (a !! "src") as [s|] eqn:Hs;
    cbn [from_option bool_decide orb];
    repeat (match goal with
            | |- context [truthy ?v && negb (is_absolute ?v)] =>
                destruct (truthy v && negb (is_absolute v))
            end; cbn [mbind option_bind]);
    rewrite ?Hh, ?Hs; done.
Qed.

Lemma first_relative_value a key :
  first_relative a = Some key → is_Some (a !! key).
Proof.
  unfold first_relative, relative_at.
  destruct (a !! "href") as [h|] eqn:Hh; simpl.
  - destruct (truthy h && negb (is_absolute h)); [intros [= <-]; by eexists|].
    destruct (a !! "src") as [s|] eqn:Hs; simpl; [|done].
    destruct (truthy s && negb (is_absolute s)); [|done].
    intros [= <-]. by eexists.
  - destruct (a !! "src") as [s|] eqn:Hs; simpl; [|done].
    destruct (truthy s && negb (is_absolute s)); [|done].
    intros [= <-]. by eexists.
Qed.

Lemma replace_links_returns base tag a :
  is_Some (replace_links base tag a) ↔
  ∀ key value, first_relative a = Some key → a !! key = Some value →
               is_Some (new_URL value base).
Proof.
  rewrite replace_links_first.
  destruct (first_relative a) as [key|] eqn:Hfirst.
  - destruct (first_relative_value a key Hfirst) as [v Hv]. rewrite Hv. simpl.
    split.
    + intros Hsome key' value [= <-] Hvalue.
      assert (value = v) as -> by congruence.
      destruct (new_URL v base); [by eexists|by destruct Hsome].
    + intros Haccepts. destruct (Haccepts key v eq_refl Hv) as [u ->].
      by eexists.
  - split; [done|by eexists].
Qed.

Lemma resolve_returns (document : node) base (sequence : nat) :
  is_Some (resolve document base sequence) ↔ accepted base document.
Proof.
  unfold accepted. unfold resolve.
  rewrite <-(Forall_iff
              (λ e, is_Some (replace_links base (tagName e) (attributes e))))
    by (intros e; apply replace_links_returns).
  rewrite <-for_elements_try_returns.
  destruct (for_elements_try (replace_links base) document); simpl.
  - split; by eexists.
  - split; by intros [? ?].
Qed.

End ResolveFacts.

Section ElementFacts.
Context `{Environment}.
Implicit Types (a linked : gmap string string) (base key : string).

Lemma replace_links_spec base tag a linked key :
  replace_links base tag a = Some linked →
  linked !! key =
  if decide (first_relative a = Some key)
  then if reflects tag key
       then a !! key ≫= (λ value, new_URL value base)
       else a !! key
  else a !! key.
Proof.
  rewrite replace_links_first.
  destruct (first_relative a) as [first|] eqn:Hfirst.
  - destruct (first_relative_value a first Hfirst) as [v Hv]. rewrite Hv.
    simpl. destruct (new_URL v base) as [u|] eqn:Hu; simpl; [|done].
    intros [= <-]. case_decide as Hk.
    + injection Hk as ->. destruct (reflects tag key); [|done].
      by rewrite lookup_insert_eq, Hv; simpl; rewrite Hu.
    + destruct (reflects tag first); [|done].
      rewrite lookup_insert_ne; [done|congruence].
  - intros [= <-]. by rewrite decide_False.
Qed.

Lemma first_relative_link a key :
  first_relative a = Some key → key = "href" ∨ key = "src".
Proof.
  unfold first_relative.
  destruct (relative_at a "href"); [naive_solver|].
  destruct (relative_at a "src"); naive_solver.
Qed.

Lemma first_relative_at a key :
  first_relative a = Some key → relative_at a key = true.
Proof.
  unfold first_relative.
  destruct (relative_at a "href") eqn:Hh; [by intros [= <-]|].
  destruct (relative_at a "src") eqn:Hs; [by intros [= <-]|done].
Qed.

(** The first loop leaves every attribute but [href] and [src] alone. *)
Lemma replace_links_other base tag a linked key :
  replace_links base tag a = Some linked → key ≠ "href" → key ≠ "src" →
  linked !! key = a !! key.
Proof.
  intros Hl Hh Hs. rewrite (replace_links_spec base tag a linked key Hl).
  case_decide as Hk; [|done].
  by destruct (first_relative_link a key Hk).
Qed.

Lemma suffix_keys_spec (keys : list string) (suffix : string) a key :
  NoDup keys →
  suffix_keys keys suffix a !! key =
  if decide (key ∈ keys) then suffixed suffix <$> a !! key else a !! key.
Proof.
  intros Hkeys. revert a.
  induction Hkeys as [|k keys Hk Hkeys IH]; intros a; simpl.
  - done.
  - rewrite IH.
    set (a1 := match a !! k with
               | Some value => if truthy value then <[k:=value +:+ suffix]> a else a
               | None => a
               end).
    assert (a1 !! k = suffixed suffix <$> a !! k) as Hsame.
    { unfold a1, suffixed. destruct (a !! k) as [v|] eqn:Hv; simpl; [|done].
      destruct (truthy v); [by rewrite lookup_insert_eq|done]. }
    assert (∀ j, j ≠ k → a1 !! j = a !! j) as Hother.
    { intros j Hj. unfold a1. destruct (a !! k) as [v|]; [|done].
      destruct (truthy v); [|done]. by rewrite lookup_insert_ne. }
    destruct (decide (key = k)) as [->|Hne].
    + rewrite decide_False by done. by rewrite decide_True by left.
    + rewrite (Hother key Hne).
      destruct (decide (key ∈ keys)).
      * by rewrite decide_True by (by right).
      * by rewrite decide_False by (by intros [?|?]%elem_of_cons).
Qed.

Lemma identifier_keys_NoDup : NoDup ["id"; "for"; "name"].
Proof. by apply (bool_decide_unpack _). Qed.

Lemma suffix_identifiers_spec (sequence : nat) a key :
  suffix_identifiers sequence a !! key =
  if has_identifier a && bool_decide (key ∈ identifier_keys)
  then suffixed (preview_suffix sequence) <$> a !! key
  else a !! key.
Proof.
  unfold suffix_identifiers. destruct (has_identifier a); cbn [andb]; [|done].
  rewrite suffix_keys_spec by apply identifier_keys_NoDup.
  unfold identifier_keys. by case_decide; case_bool_decide.
Qed.

(** What [resolve] makes of the attribute [key] of an element. *)
Lemma resolved_attribute base (sequence : nat) (e e' : node) key :
  resolved base sequence e e' →
  getAttribute key e' =
  if decide (first_relative (attributes e) = Some key)
  then if reflects (tagName e) key
       then getAttribute key e ≫= (λ value, new_URL value base)
       else getAttribute key e
  else if has_identifier (attributes e) && bool_decide (key ∈ identifier_keys)
       then suffixed (preview_suffix sequence) <$> getAttribute key e
       else getAttribute key e.
Proof.
  intros (_ & linked & Hl & Ha). unfold getAttribute. rewrite Ha.
  rewrite suffix_identifiers_spec.
  assert (has_identifier linked = has_identifier (attributes e)) as ->.
  { unfold has_identifier.
    by rewrite !(replace_links_other base _ _ linked _ Hl). }
  rewrite (replace_links_spec base _ _ linked key Hl).
  case_decide as Hk; [|done].
  destruct (first_relative_link _ _ Hk) as [-> | ->];
    by rewrite andb_false_r.
Qed.

End ElementFacts.

(** C3, as the code has it.  After [resolve(document, base)] has returned,
    the elements of the document are the same, in the same order, and for
    each of them and each of [href] and [src]: the attribute holds the
    original value resolved against [base] if it is the first of [href],
    [src] whose original value is not empty and does not match the pattern
    of absolute URLs, and the element is one whose property of that name
    reflects the attribute; otherwise it holds the original value.  So at
    most one of the two is rewritten per element, an absolute value is never
    rewritten, and neither is an empty value, a relative [src] beside a
    relative [href], nor a relative value on an element without the
    property, such as the [href] of a [span] or of an [img], or the [src] of
    an [a].  [resolve] returns exactly when the URL constructor accepts the
    values that are to be resolved. *)
Theorem resolve_rewrites_first_relative `{Environment} (document : node)
    (base : string) (sequence : nat) :
  (∀ resolved_document sequence',
     resolve document base sequence = Some (resolved_document, sequence') →
     Forall2 (links_resolved base)
       (elements document) (elements resolved_document))
  ∧ (is_Some (resolve document base sequence) ↔ accepted base document).
Proof.
  split; [|apply resolve_returns].
  intros d' s' Hr. apply resolve_elements in Hr as [_ Hr].
  eapply Forall2_impl; [exact Hr|].
  intros e e' He. unfold links_resolved.
  assert (∀ key, key = "href" ∨ key = "src" →
            getAttribute key e' =
            if decide (first_relative (attributes e) = Some key)
            then if reflects (tagName e) key
                 then getAttribute key e ≫= (λ value, new_URL value base)
                 else getAttribute key e
            else getAttribute key e) as Hkeys.
  { intros key Hkey.
    rewrite (resolved_attribute base sequence e e' key He).
    case_decide; [done|].
    by destruct Hkey as [-> | ->]; rewrite andb_false_r. }
  split_and!; [done| |].
  - intros key value Hkey Hvalue Habsolute. rewrite (Hkeys key Hkey).
    rewrite decide_False; [done|]. intros Hfirst.
    apply first_relative_at in Hfirst. unfold relative_at in Hfirst.
    unfold getAttribute in Hvalue. rewrite Hvalue in Hfirst. simpl in Hfirst.
    rewrite Habsolute in Hfirst. by rewrite andb_false_r in Hfirst.
  - rewrite (Hkeys "href"), (Hkeys "src") by auto.
    destruct (first_relative (attributes e)) as [key|] eqn:Hfirst.
    + destruct (first_relative_link _ _ Hfirst) as [-> | ->].
      * right. by rewrite decide_False.
      * left. by rewrite decide_False.
    + left. by rewrite decide_False.
Qed.

Lemma resolve_rewrites_first_relative_witness :
  Forall2 (@links_resolved Sample.env "https://example.com/guide/")
    [Sample.el "a" [("href", "install.html")] [Text "Install"]]
    [Sample.el "a" [("href", "https://example.com/guide/install.html")]
       [Text "Install"]].
Proof.
  apply (proj1 (@resolve_rewrites_first_relative Sample.env
                  (Sample.el "a" [("href", "install.html")] [Text "Install"])
                  "https://example.com/guide/" 0)
           (Sample.el "a" [("href", "https://example.com/guide/install.html")]
              [Text "Install"]) 1).
  vm_compute. reflexivity.
Defined.

(** C3, as stated, fails for an empty [href] and for a relative [src]
    beside a relative [href]: neither matches the pattern, both keep their
    value, and the URL constructor would have resolved them. *)
Lemma resolve_leaves_relative_values :
  let base := "https://example.com/guide/" in
  let document :=
    Sample.el "p" []
      [Sample.el "a" [("href", "")] [Text "top"];
       Sample.el "a" [("href", "a.html"); ("src", "b.png")] [Text "next"]] in
  (fst <$> @resolve Sample.env document base 0) =
  Some (Sample.el "p" []
          [Sample.el "a" [("href", "")] [Text "top"];
           Sample.el "a"
             [("href", "https://example.com/guide/a.html"); ("src", "b.png")]
             [Text "next"]])
  ∧ is_absolute "" = false
  ∧ @new_URL Sample.env "" base = Some "https://example.com/guide/"
  ∧ is_absolute "b.png" = false
  ∧ @new_URL Sample.env "b.png" base = Some "https://example.com/guide/b.png".
Proof. split_and!; vm_compute; reflexivity. Qed.

(** An assignment that does not reach the attribute: a [span] has no [href]
    property, an [a] no [src], an [img] no [href].  Their relative values
    are handed to the URL constructor and stay as they are. *)
Example resolve_leaves_other_elements :
  let document :=
    Sample.el "p" []
      [Sample.el "span" [("href", "a.html")] [];
       Sample.el "a" [("src", "b.png")] [];
       Sample.el "img" [("href", "c.html"); ("src", "d.png")] []] in
  (fst <$> @resolve Sample.env document "https://example.com/guide/" 0)
  = Some document.
Proof. vm_compute. reflexivity. Qed.

(* ------------------------------------------------------------------------- *)
(** * The sequence counter                                                    *)
(* ------------------------------------------------------------------------- *)

Lemma preview_suffix_inj : Inj (=) (=) preview_suffix.
Proof.
  intros n m Hnm. unfold preview_suffix in Hnm.
  by apply (inj (String.app "$preview_")), (inj pretty) in Hnm.
Qed.

Lemma prefix_app (p s t : string) :
  String.prefix p s = true → String.prefix p (s +:+ t) = true.
Proof.
  revert s. induction p as [|c p IH]; intros [|d s]; simpl; try done.
  - by destruct t.
  - destruct (Ascii.ascii_dec c d); [apply IH|done].
Qed.

Lemma truthy_app (s t : string) : truthy s = true → truthy (s +:+ t) = true.
Proof. by destruct s. Qed.

Lemma truthy_prefix (s : string) : String.prefix "__" s = true → truthy s = true.
Proof. by destruct s. Qed.

Section CounterFacts.
Context `{Environment}.

Lemma resolved_identifier (base : string) (sequence : nat) (e e' : node)
    (key value : string) :
  resolved base sequence e e' →
  key ∈ identifier_keys →
  has_identifier (attributes e) = true →
  getAttribute key e = Some value →
  getAttribute key e' = Some (suffixed (preview_suffix sequence) value).
Proof.
  intros He Hkey Hid Hv.
  rewrite (resolved_attribute base sequence e e' key He), Hid, Hv.
  rewrite decide_False.
  - by rewrite bool_decide_eq_true_2.
  - intros [-> | ->]%first_relative_link;
      apply (bool_decide_pack _) in Hkey; by vm_compute in Hkey.
Qed.

Lemma resolved_has_identifier (base : string) (sequence : nat) (e e' : node) :
  resolved base sequence e e' →
  has_identifier (attributes e) = true →
  has_identifier (attributes e') = true.
Proof.
  intros He Hid. pose proof Hid as Hid'. unfold has_identifier in Hid |- *.
  apply orb_true_iff in Hid as [Hname|Hfor]; apply orb_true_iff.
  - left. destruct (attributes e !! "name") as [name|] eqn:Hn; [|done].
    fold (getAttribute "name" e') .
    rewrite (resolved_identifier base sequence e e' "name" name He);
      [|by apply (bool_decide_unpack _)|done..].
    simpl in *. unfold suffixed. rewrite (truthy_prefix name Hname).
    by apply prefix_app.
  - right. apply bool_decide_eq_true in Hfor as [for_ Hfor].
    fold (getAttribute "for" e').
    rewrite (resolved_identifier base sequence e e' "for" for_ He);
      [|by apply (bool_decide_unpack _)|done..].
    by apply bool_decide_eq_true.
Qed.

Lemma resolve_all_counts (documents : list node) (base : string)
    (sequence : nat) (results : list (node * nat)) (final : nat) :
  resolve_all documents base sequence = Some (results, final) →
  final = sequence + length documents
  ∧ results.*2 = seq sequence (length documents).
Proof.
  revert sequence results.
  induction documents as [|d documents IH]; intros sequence results; simpl.
  - intros [= <- <-]. split; [lia|done].
  - destruct (resolve d base sequence) as [[d' s']|] eqn:Hd; simpl; [|done].
    apply resolve_elements in Hd as [-> _].
    destruct (resolve_all documents base (S sequence)) as [[ds f]|] eqn:Hds;
      simpl; [|done].
    intros [= <- <-]. destruct (IH _ _ Hds) as [-> Hseq].
    split; [lia|]. by rewrite fmap_cons, Hseq.
Qed.

End CounterFacts.

(** C4. A call of [resolve] that returns leaves [sequence] one higher than
    it found it, and every identifier it rewrites ([id], [for], [name], not
    empty, of an element that has a [name] starting with [__] or a [for])
    gets the suffix of the value [sequence] had before the call.  A second
    call on the result appends a second suffix, that of the next value,
    which differs from the first.  Resolving [n] documents in a row takes
    [sequence] from [s] to [s + n], the calls see [s], [s + 1], ..., and
    their suffixes are pairwise different.  A call returns unless the URL
    constructor throws on a value that is to be resolved. *)
Theorem sequence_counts_resolutions `{Environment} (document : node)
    (base : string) (sequence : nat) (once : node) (sequence1 : nat) :
  resolve document base sequence = Some (once, sequence1) →
  sequence1 = S sequence
  ∧ Forall2 (identifiers_rewritten (λ value, value +:+ preview_suffix sequence))
      (elements document) (elements once)
  ∧ (∀ twice sequence2,
       resolve once base sequence1 = Some (twice, sequence2) →
       sequence2 = S (S sequence)
       ∧ Forall2 (identifiers_rewritten
                    (λ value, (value +:+ preview_suffix sequence)
                              +:+ preview_suffix (S sequence)))
           (elements document) (elements twice))
  ∧ preview_suffix sequence ≠ preview_suffix (S sequence)
  ∧ (∀ documents results final,
       resolve_all documents base sequence = Some (results, final) →
       final = sequence + length documents
       ∧ results.*2 = seq sequence (length documents)
       ∧ NoDup (preview_suffix <$> results.*2))
  ∧ (∀ d s, is_Some (resolve d base s) ↔ accepted base d).
Proof.
  intros Honce.
  pose proof (resolve_elements _ _ _ _ _ Honce) as [-> Hfirst].
  assert (Forall2 (identifiers_rewritten (λ value, value +:+ preview_suffix sequence))
            (elements document) (elements once)) as Hsuffixed.
  { eapply Forall2_impl; [exact Hfirst|].
    intros e e1 He key value Hkey Hid Hv Hne.
    rewrite (resolved_identifier base sequence e e1 key value He Hkey Hid Hv).
    unfold suffixed, truthy. by rewrite bool_decide_eq_true_2. }
  split_and!; [done|done| | | |].
  - intros twice sequence2 Htwice.
    pose proof (resolve_elements _ _ _ _ _ Htwice) as [-> Hsecond].
    split; [done|].
    eapply Forall2_trans; [|exact Hfirst|exact Hsecond].
    intros e e1 e2 He1 He2 key value Hkey Hid Hv Hne.
    assert (truthy value = true) as Htruthy by by apply bool_decide_eq_true_2.
    pose proof (resolved_identifier base sequence e e1 key value He1 Hkey Hid Hv)
      as Hv1.
    rewrite (resolved_identifier base (S sequence) e1 e2 key _ He2 Hkey
               (resolved_has_identifier base sequence e e1 He1 Hid) Hv1).
    unfold suffixed. by rewrite Htruthy, (truthy_app _ _ Htruthy).
  - intros Heq%preview_suffix_inj. lia.
  - intros documents results final Hall.
    destruct (resolve_all_counts documents base sequence results final Hall)
      as [-> Hseq].
    split_and!; [done..|].
    rewrite Hseq. apply (NoDup_fmap_2 _), NoDup_seq.
  - intros d s. apply resolve_returns.
Qed.

Lemma sequence_counts_resolutions_witness :
  Forall2 (identifiers_rewritten (λ value, value +:+ "$preview_7"))
    (elements Sample.tabs) (elements Sample.tabs_once).
Proof.
  destruct (@sequence_counts_resolutions Sample.env Sample.tabs
              "https://example.com/guide/" 7 Sample.tabs_once 8
              ltac:(vm_compute; reflexivity)) as (_ & Hsuffixed & _).
  exact Hsuffixed.
Defined.

(** Resolving the content tabs twice, at the counter values 7 and 8. *)
Example tabs_resolved_twice :
  (once ← @resolve Sample.env Sample.tabs "https://example.com/guide/" 7;
   @resolve Sample.env once.1 "https://example.com/guide/" once.2)
  = Some (Sample.el "div" [("class", "tabbed-set")]
            [Sample.el "input"
               [("name", "__tabbed_1$preview_7$preview_8");
                ("id", "__tabbed_1_1$preview_7$preview_8");
                ("type", "radio")] [];
             Sample.el "label" [("for", "__tabbed_1_1$preview_7$preview_8")]
               [Text "Tab"]],
          9).
Proof. vm_compute. reflexivity. Qed.

(* ------------------------------------------------------------------------- *)
(** * Properties of the preview pipeline                                      *)
(* ------------------------------------------------------------------------- *)

Import Pipeline.

Lemma insertions_app (es es' : list effect) :
  insertions (es ++ es') = insertions es + insertions es'.
Proof. unfold insertions. by rewrite filter_app, length_app. Qed.

Lemma removals_app (es es' : list effect) :
  removals (es ++ es') = removals es + removals es'.
Proof. unfold removals. by rewrite filter_app, length_app. Qed.

Lemma consistent_initial (sequence : nat) : consistent (initial sequence).
Proof.
  split; simpl; try done.
  - intros r o Hin. by apply elem_of_nil in Hin.
  - intros r els Hin. by apply elem_of_nil in Hin.
  - constructor.
Qed.

(** The fields the invariant is about. *)
Lemma consistent_same (st st' : state) :
  runs st' = runs st → request st' = request st → mounted st' = mounted st →
  body st' = body st → serials st' = serials st →
  effects st' = effects st → failed st' = failed st →
  consistent st → consistent st'.
Proof.
  intros Hr Hq Hm Hb Hs He Hf []. unfold held in *.
  split; unfold held; rewrite ?Hr, ?Hq, ?Hm, ?Hb, ?Hs, ?He, ?Hf; done.
Qed.

(** Removing overlays by their serial numbers. *)
Lemma remove_overlay_head (o : overlay) (rest : list overlay) :
  serial o ∉ serial <$> rest → remove_overlay o (o :: rest) = rest.
Proof.
  intros Hfresh. unfold remove_overlay.
  rewrite filter_cons_False by (by intros ?).
  induction rest as [|o' rest IH]; [done|].
  rewrite fmap_cons, not_elem_of_cons in Hfresh. destruct Hfresh as [Hne Hfresh].
  rewrite filter_cons_True by done. by rewrite IH.
Qed.

Lemma remove_overlays_all (b l : list overlay) :
  Forall (λ o, o ∈ l) b → foldl (λ b o, remove_overlay o b) b l = [].
Proof.
  revert b. induction l as [|o l IH]; intros b Hb; simpl.
  - destruct b as [|o b]; [done|].
    apply Forall_cons in Hb as [Hin _]. by apply elem_of_nil in Hin.
  - apply IH. unfold remove_overlay. apply Forall_forall. intros o' Hin.
    apply list_elem_of_filter in Hin as [Hne Hin].
    eapply Forall_forall in Hb; [|exact Hin].
    apply elem_of_cons in Hb as [->|Hb]; done.
Qed.

Lemma removals_removed (r : nat) (l : list overlay) :
  insertions ((λ o, Removed r (rendered o)) <$> l) = 0
  ∧ removals ((λ o, Removed r (rendered o)) <$> l) = length l.
Proof.
  unfold insertions, removals. induction l as [|o l [IHi IHr]]; [done|].
  rewrite fmap_cons, filter_cons_False by done.
  rewrite filter_cons_True by done. simpl. by rewrite IHi, IHr.
Qed.

Section PipelineFacts.
Context `{Environment} (el : URL).

Lemma consistent_start_run (sitemap : gset string) (st : state) :
  failed st = false → consistent st → consistent (start_run el sitemap st).
Proof.
  intros Hfailed
    [Hstarted Hfresh Hlogged Hinserted Hcancelled Hbody Hbalance Hreleased
     Hserials Hdistinct].
  unfold start_run. case_bool_decide as Hin.
  - destruct st as [g sm ac rn rq mt bd sr sq fl es]; unfold held in *;
      simpl in *.
    assert (Forall (λ e, effect_run e < S rn) es) as Hstarted'.
    { eapply Forall_impl; [exact Hstarted|]. simpl. lia. }
    assert (∀ e, e ∈ es → effect_run e ≠ rn) as Hold.
    { intros e He. eapply Forall_forall in Hstarted; [|exact He]. lia. }
    destruct rq as [[previous u]|].
    + destruct (Hfresh previous u eq_refl) as (Hlt & Hnc & Hnm).
      split; unfold held; simpl.
      * apply Forall_app. split; [done|].
        repeat constructor; simpl; lia.
      * intros r u' [= <- <-]. split; [lia|]. split.
        -- rewrite elem_of_app, !elem_of_cons, elem_of_nil.
           intros [Hc|[[= Hc]|[|[]]]]; [|lia|done].
           by apply (Hold _ Hc).
        -- intros els. rewrite elem_of_app, !elem_of_cons, elem_of_nil.
           intros [Hc|[|[|[]]]]; [|done..].
           by apply (Hold _ Hc).
      * intros t Ht. apply elem_of_app. left. by apply Hlogged.
      * intros r o. rewrite elem_of_app, !elem_of_cons, elem_of_nil.
        intros [Hi|[|[|[]]]]; [|done..].
        destruct (Hinserted r o Hi) as [els Hm].
        exists els. apply elem_of_app. by left.
      * intros r els. rewrite !elem_of_app, !elem_of_cons, !elem_of_nil.
        intros [Hm|[|[|[]]]]; [|done..].
        intros [Hc|[[= ->]|[|[]]]]; [|by eapply Hnm|done].
        by eapply Hcancelled.
      * done.
      * rewrite insertions_app, removals_app. simpl.
        unfold insertions, removals in *. simpl. lia.
      * congruence.
      * done.
      * done.
    + split; unfold held; simpl.
      * apply Forall_app. split; [done|].
        repeat constructor; simpl; lia.
      * intros r u' [= <- <-]. split; [lia|]. split.
        -- rewrite elem_of_app, !elem_of_cons, elem_of_nil.
           intros [Hc|[|[]]]; [|done].
           by apply (Hold _ Hc).
        -- intros els. rewrite elem_of_app, !elem_of_cons, elem_of_nil.
           intros [Hc|[|[]]]; [|done..].
           by apply (Hold _ Hc).
      * intros t Ht. apply elem_of_app. left. by apply Hlogged.
      * intros r o. rewrite elem_of_app, !elem_of_cons, elem_of_nil.
        intros [Hi|[|[]]]; [|done..].
        destruct (Hinserted r o Hi) as [els Hm].
        exists els. apply elem_of_app. by left.
      * intros r els. rewrite !elem_of_app, !elem_of_cons, !elem_of_nil.
        intros [Hm|[|[]]]; [|done..].
        intros [Hc|[|[]]]; [|done].
        by eapply Hcancelled.
      * done.
      * rewrite insertions_app, removals_app. simpl.
        unfold insertions, removals in *. simpl. lia.
      * congruence.
      * done.
      * done.
  - destruct st as [g sm ac rn rq mt bd sr sq fl es]; unfold held in *;
      simpl in *.
    split; unfold held; simpl; try done.
    + eapply Forall_impl; [exact Hstarted|]. simpl. lia.
    + intros r u Hr. destruct (Hfresh r u Hr) as (? & ? & ?).
      split_and!; [lia|done..].
Qed.

Lemma consistent_unsubscribe_content (st : state) :
  consistent st → consistent (unsubscribe_content st).
Proof.
  intros [Hstarted Hfresh Hlogged Hinserted Hcancelled Hbody Hbalance Hreleased
          Hserials Hdistinct].
  unfold unsubscribe_content.
  destruct st as [g sm ac rn rq mt bd sr sq fl es]; unfold held in *;
    simpl in *.
  destruct mt as [[r els [|o rest]]|]; [by split| |by split].
  pose proof (Hlogged _ eq_refl) as Hm. simpl in Hm, Hbody.
  assert (r < rn) as Hlt.
  { eapply Forall_forall in Hstarted; [|exact Hm]. done. }
  subst bd. rewrite fmap_cons in Hdistinct.
  apply NoDup_cons in Hdistinct as [Hfresh_o Hdistinct].
  apply Forall_cons in Hserials as [_ Hserials].
  split; unfold held; simpl; rewrite ?remove_overlay_head by done.
  - apply Forall_app. split; [done|]. by repeat constructor.
  - intros r' u Hr. destruct (Hfresh r' u Hr) as (? & Hnc & Hnm).
    split; [done|]. split.
    + rewrite elem_of_app, !elem_of_cons, elem_of_nil. intros [?|[|[]]]; done.
    + intros els'. rewrite elem_of_app, !elem_of_cons, elem_of_nil.
      intros [?|[|[]]]; [by eapply Hnm|done].
  - intros t [= <-]. apply elem_of_app. by left.
  - intros r' o'. rewrite elem_of_app, !elem_of_cons, elem_of_nil.
    intros [Hi|[|[]]]; [|done].
    destruct (Hinserted r' o' Hi) as [els' ?].
    exists els'. apply elem_of_app. by left.
  - intros r' els'. rewrite !elem_of_app, !elem_of_cons, !elem_of_nil.
    intros [Hm'|[|[]]]; [|done]. intros [?|[|[]]]; [by eapply Hcancelled|done].
  - done.
  - rewrite insertions_app, removals_app. simpl in *.
    unfold insertions, removals in *. simpl. lia.
  - intros Hf. by destruct (Hreleased Hf).
  - done.
  - done.
Qed.

Lemma consistent_subscribe_content (st : state) :
  consistent st → consistent (subscribe_content st).
Proof.
  intros [Hstarted Hfresh Hlogged Hinserted Hcancelled Hbody Hbalance Hreleased
          Hserials Hdistinct].
  unfold subscribe_content.
  destruct st as [g sm ac rn rq mt bd sr sq fl es]; unfold held in *;
    simpl in *.
  destruct mt as [[r els rest]|]; [|by split].
  pose proof (Hlogged _ eq_refl) as Hm. simpl in Hm, Hbody.
  assert (r < rn) as Hlt.
  { eapply Forall_forall in Hstarted; [|exact Hm]. done. }
  subst bd. split; unfold held; simpl.
  - apply Forall_app. split; [done|]. by repeat constructor.
  - intros r' u Hr. destruct (Hfresh r' u Hr) as (? & Hnc & Hnm).
    split; [done|]. split.
    + rewrite elem_of_app, !elem_of_cons, elem_of_nil. intros [?|[|[]]]; done.
    + intros els'. rewrite elem_of_app, !elem_of_cons, elem_of_nil.
      intros [?|[|[]]]; [by eapply Hnm|done].
  - intros t [= <-]. apply elem_of_app. by left.
  - intros r' o'. rewrite elem_of_app, !elem_of_cons, elem_of_nil.
    intros [Hi|[[= -> ->]|[]]].
    + destruct (Hinserted r' o' Hi) as [els' ?].
      exists els'. apply elem_of_app. by left.
    + exists els. apply elem_of_app. by left.
  - intros r' els'. rewrite !elem_of_app, !elem_of_cons, !elem_of_nil.
    intros [Hm'|[|[]]]; [|done]. intros [?|[|[]]]; [by eapply Hcancelled|done].
  - done.
  - rewrite insertions_app, removals_app, length_app. simpl in *.
    unfold insertions, removals in *. simpl. lia.
  - intros Hf. by destruct (Hreleased Hf).
  - apply Forall_app. split.
    + eapply Forall_impl; [exact Hserials|]. simpl. lia.
    + constructor; [simpl; lia|constructor].
  - rewrite fmap_app. apply NoDup_app. split_and!; [done| |].
    + intros x Hx. apply list_elem_of_fmap in Hx as (o' & -> & Hin).
      eapply Forall_forall in Hserials; [|exact Hin].
      intros Hsame. apply list_elem_of_singleton in Hsame. simpl in Hsame. lia.
    + apply NoDup_singleton.
Qed.

Lemma unmount_body (st : state) : consistent st → body (unmount st) = [].
Proof.
  intros [_ _ _ _ _ Hbody _ _ _ _]. unfold unmount.
  destruct st as [g sm ac rn rq mt bd sr sq fl es]; unfold held in *;
    simpl in *.
  destruct mt as [[r els rest]|]; simpl in *; [|done].
  subst bd. apply remove_overlays_all. by apply Forall_forall.
Qed.

Lemma unmount_effects (st : state) :
  ∃ new, effects (unmount st) = effects st ++ new
         ∧ Forall (λ e, Some (effect_run e) = showing st ∧ is_removal e = true) new.
Proof.
  unfold unmount, showing.
  destruct st as [g sm ac rn rq mt bd sr sq fl es]; simpl.
  destruct mt as [[r els rest]|]; simpl.
  - eexists. split; [done|]. apply Forall_fmap, Forall_forall. by intros o _.
  - exists []. by rewrite app_nil_r.
Qed.

Lemma unmount_mounted (st : state) : mounted (unmount st) = None.
Proof.
  unfold unmount.
  by destruct st as [g sm ac rn rq [[r els rest]|] bd sr sq fl es].
Qed.

(** The fields [unmount] leaves alone. *)
Lemma unmount_same (st : state) :
  runs (unmount st) = runs st ∧ request (unmount st) = request st
  ∧ failed (unmount st) = failed st ∧ serials (unmount st) = serials st
  ∧ sequence (unmount st) = sequence st
  ∧ gate (unmount st) = gate st ∧ sitemaps (unmount st) = sitemaps st
  ∧ actives (unmount st) = actives st.
Proof.
  unfold unmount.
  by destruct st as [g sm ac rn rq [[r els rest]|] bd sr sq fl es].
Qed.

Lemma consistent_unmount (st : state) : consistent st → consistent (unmount st).
Proof.
  intros Hst. pose proof (unmount_body st Hst) as Hempty.
  pose proof (unmount_mounted st) as Hnone.
  destruct (unmount_effects st) as (new & Hnew & Hremovals).
  destruct (unmount_same st) as (Hr & Hq & Hf & Hs & _).
  assert (insertions new = 0 ∧ removals new = length (body st)) as [Hi Hl].
  { destruct Hst as [_ _ _ _ _ Hbody _ _ _ _]. revert Hnew. unfold unmount.
    destruct st as [g sm ac rn rq mt bd sr sq fl es]; unfold held in *;
      simpl in *.
    destruct mt as [[r els rest]|]; simpl in *.
    - intros Heq%app_inv_head. subst bd new. apply removals_removed.
    - intros Heq. rewrite <- (app_nil_r es) in Heq at 1.
      apply app_inv_head in Heq. by subst bd new. }
  destruct Hst as [Hstarted Hfresh Hlogged Hinserted Hcancelled Hbody Hbalance
                     Hreleased Hserials Hdistinct].
  assert (∀ x, x ∈ new → is_removal x = true) as Hnew_removal.
  { intros x Hx. eapply Forall_forall in Hremovals as [_ ?]; [|exact Hx]. done. }
  assert (∀ x, x ∈ new → effect_run x < runs st) as Hnew_run.
  { intros x Hx. eapply Forall_forall in Hremovals as [Hrun _]; [|exact Hx].
    unfold showing in Hrun. destruct (mounted st) as [t|] eqn:Ht; [|done].
    injection Hrun as ->.
    pose proof (Hlogged t eq_refl) as Hm.
    eapply Forall_forall in Hstarted; [|exact Hm]. done. }
  split; unfold held; rewrite ?Hempty, ?Hnone, ?Hnew, ?Hr, ?Hq, ?Hf, ?Hs.
  - apply Forall_app. split; [done|]. by apply Forall_forall.
  - intros r u Hru. destruct (Hfresh r u Hru) as (? & Hnc & Hnm).
    split; [done|]. split.
    + rewrite elem_of_app. intros [?|Hx]; [done|]. by apply Hnew_removal in Hx.
    + intros els. rewrite elem_of_app.
      intros [?|Hx]; [by eapply Hnm|]. by apply Hnew_removal in Hx.
  - done.
  - intros r o. rewrite elem_of_app. intros [Hx|Hx].
    + destruct (Hinserted r o Hx) as [els ?]. exists els. apply elem_of_app.
      by left.
    + by apply Hnew_removal in Hx.
  - intros r els. rewrite !elem_of_app. intros [Hm|Hx].
    + intros [?|Hx]; [by eapply Hcancelled|]. by apply Hnew_removal in Hx.
    + by apply Hnew_removal in Hx.
  - done.
  - rewrite insertions_app, removals_app. simpl. lia.
  - intros Hfl. by destruct (Hreleased Hfl).
  - constructor.
  - constructor.
Qed.

Lemma consistent_fail (st : state) : consistent st → consistent (fail st).
Proof.
  intros Hst. pose proof (unmount_mounted st) as Hnone.
  apply consistent_unmount in Hst
    as [Hstarted Hfresh Hlogged Hinserted Hcancelled Hbody Hbalance Hreleased
        Hserials Hdistinct].
  unfold fail. destruct (unmount st); unfold held in *; simpl in *. subst.
  split; unfold held; simpl; done.
Qed.

Lemma consistent_mount (r : nat) (els : list node) (st : state) :
  failed st = false → request st = None → r < runs st →
  Cancelled r ∉ effects st →
  consistent st → consistent (mount r els st).
Proof.
  intros Hfailed Hrequest Hlt Hnc Hst.
  destruct (unmount_effects st) as (new & Hnew & Hremovals).
  destruct (unmount_same st) as (Hr & Hq & Hf & _).
  pose proof (unmount_body st Hst) as Hb.
  assert (Cancelled r ∉ effects (unmount st)) as Hnc'.
  { rewrite Hnew, elem_of_app. intros [?|Hin]; [done|].
    eapply Forall_forall in Hremovals as [_ ?]; [|exact Hin]. done. }
  apply consistent_unmount in Hst
    as [Hstarted Hfresh Hlogged Hinserted Hcancelled Hbody Hbalance Hreleased
        Hserials Hdistinct].
  unfold mount. set (st' := unmount st) in *. clearbody st'.
  split; unfold held; simpl; rewrite ?Hr, ?Hq, ?Hf, ?Hb in *.
  - apply Forall_app. split; [done|]. by repeat constructor.
  - intros r' u Hr'. congruence.
  - intros t [= <-]. simpl. apply elem_of_app. right. by left.
  - intros r' o'. rewrite elem_of_app, !elem_of_cons, elem_of_nil.
    intros [Hi|[|[]]]; [|done].
    destruct (Hinserted r' o' Hi) as [els' ?].
    exists els'. apply elem_of_app. by left.
  - intros r' els'. rewrite !elem_of_app, !elem_of_cons, !elem_of_nil.
    intros [Hm|[[= -> ->]|[]]].
    + intros [?|[|[]]]; [by eapply Hcancelled|done].
    + intros [?|[|[]]]; done.
  - done.
  - rewrite insertions_app, removals_app. simpl in *.
    unfold insertions, removals in *. simpl. lia.
  - congruence.
  - constructor.
  - constructor.
Qed.

Lemma getOptionalElement_found (sel : selector) (doc : node) (target : position) :
  getOptionalElement sel doc = Some target → selector_throws sel = false.
Proof.
  unfold getOptionalElement, selector_throws. destruct sel as [id|]; [|done].
  destruct (literal id); [done|]. by destruct (querySelector_quoted id).
Qed.

Lemma consistent_on_document (r : nat) (doc : node) (st : state) :
  failed st = false → request st = None → r < runs st →
  Cancelled r ∉ effects st →
  consistent st → consistent (on_document el r doc st).
Proof.
  intros Hfailed Hrequest Hlt Hnc Hst. unfold on_document.
  destruct (target_selector el) as [sel|]; [|by apply consistent_fail].
  destruct (selector_throws sel); [by apply consistent_fail|].
  destruct (getOptionalElement sel doc) as [target|]; [|done].
  destruct (extract target) as [els|]; [|by apply consistent_fail].
  destruct (length els =? 1); [done|]. by apply consistent_mount.
Qed.

Lemma consistent_on_response (doc : node) (st : state) :
  failed st = false → consistent st → consistent (on_response el doc st).
Proof.
  intros Hfailed Hst. unfold on_response.
  destruct (request st) as [[r u]|] eqn:Hrequest; [|done].
  destruct (request_fresh st Hst r u Hrequest) as (Hlt & Hnc & _).
  assert (consistent (set_request None st)) as Hcleared.
  { destruct Hst as [? ? ? ? ? ? ? Hreleased ? ?].
    split; unfold held; simpl; try done.
    intros Hf. by destruct (Hreleased Hf). }
  destruct (resolve doc u (sequence (set_request None st))) as [[doc' s']|];
    [|by apply consistent_fail].
  apply consistent_on_document; try done.
  by apply (consistent_same (set_request None st)).
Qed.

Lemma consistent_step (st : state) (e : event) :
  consistent st → consistent (step el st e).
Proof.
  intros Hst. unfold step. destruct (failed st) eqn:Hfailed; [done|].
  destruct e as [i|sitemap|doc| |].
  - destruct (gate_step (gate st) i) as [g emits].
    assert (consistent (set_gate g st)) as Hg
      by by apply (consistent_same st).
    destruct emits; [|done]. unfold on_active. simpl.
    destruct (sitemaps st) as [|sitemap waiting].
    + by apply (consistent_same st).
    + apply consistent_start_run; [done|]. by apply (consistent_same st).
  - unfold on_sitemap. destruct (actives st) as [|waiting].
    + by apply (consistent_same st).
    + apply consistent_start_run; [done|]. by apply (consistent_same st).
  - by apply consistent_on_response.
  - by apply consistent_subscribe_content.
  - by apply consistent_unsubscribe_content.
Qed.

Lemma consistent_run (events : list event) (st : state) :
  consistent st → consistent (run el events st).
Proof.
  revert st. induction events as [|e events IH]; intros st Hst; [done|].
  simpl. by apply IH, consistent_step.
Qed.

(** Every state the pipeline reaches from its start is consistent. *)
Lemma consistent_reached (events : list event) (sequence : nat) :
  consistent (run el events (initial sequence)).
Proof. apply consistent_run, consistent_initial. Qed.

(** ** A retired run has no further effect *)

Lemma without_refl (k : nat) (st : state) : retired k st → without k st st.
Proof. intros Hk. split; [done|]. exists []. by rewrite app_nil_r. Qed.

Lemma without_trans (k : nat) (st1 st2 st3 : state) :
  without k st1 st2 → without k st2 st3 → without k st1 st3.
Proof.
  intros (_ & new1 & He1 & Hn1) (Hk & new2 & He2 & Hn2).
  split; [done|]. exists (new1 ++ new2).
  split; [by rewrite He2, He1, app_assoc|]. by apply Forall_app.
Qed.

Lemma without_same (k : nat) (st st' : state) :
  runs st' = runs st → request st' = request st → mounted st' = mounted st →
  effects st' = effects st →
  retired k st → without k st st'.
Proof.
  intros Hr Hq Hm He (Hlt & Hreq & Hshow).
  split.
  - unfold retired, requesting, showing. by rewrite Hr, Hq, Hm.
  - exists []. by rewrite app_nil_r.
Qed.

Lemma without_start_run (k : nat) (sitemap : gset string) (st : state) :
  retired k st → without k st (start_run el sitemap st).
Proof.
  intros (Hlt & Hreq & Hshow). unfold start_run.
  destruct st as [g sm ac rn rq mt bd sr sq fl es].
  unfold without, retired, requesting, showing in *. simpl in *.
  case_bool_decide; simpl.
  - split; simpl.
    + split_and!; [lia| |done]. intros [= ->]. lia.
    + destruct rq as [[previous u]|]; eexists; (split; [done|]);
        repeat constructor; simpl in *; try lia. congruence.
  - split; simpl.
    + split_and!; [lia|done..].
    + exists []. by rewrite app_nil_r.
Qed.

Lemma without_unsubscribe_content (k : nat) (st : state) :
  retired k st → without k st (unsubscribe_content st).
Proof.
  intros (Hlt & Hreq & Hshow). unfold unsubscribe_content.
  destruct st as [g sm ac rn rq mt bd sr sq fl es].
  unfold without, retired, requesting, showing in *. simpl in *.
  destruct mt as [[r els [|o rest]]|]; simpl in *.
  - split; [done|]. exists []. by rewrite app_nil_r.
  - split; [done|]. eexists. split; [done|]. repeat constructor. simpl. congruence.
  - split; [done|]. exists []. by rewrite app_nil_r.
Qed.

Lemma without_subscribe_content (k : nat) (st : state) :
  retired k st → without k st (subscribe_content st).
Proof.
  intros (Hlt & Hreq & Hshow). unfold subscribe_content.
  destruct st as [g sm ac rn rq mt bd sr sq fl es].
  unfold without, retired, requesting, showing in *. simpl in *.
  destruct mt as [[r els rest]|]; simpl in *.
  - split; [done|]. eexists. split; [done|]. repeat constructor. simpl. congruence.
  - split; [done|]. exists []. by rewrite app_nil_r.
Qed.

Lemma without_unmount (k : nat) (st : state) :
  retired k st → without k st (unmount st).
Proof.
  intros (Hlt & Hreq & Hshow).
  destruct (unmount_effects st) as (new & Hnew & Hremovals).
  destruct (unmount_same st) as (Hr & Hq & _).
  split.
  - unfold retired, requesting, showing.
    by rewrite Hr, Hq, unmount_mounted.
  - exists new. split; [done|].
    eapply Forall_impl; [exact Hremovals|]. intros e [Hrun _] Hk.
    apply Hshow. by rewrite <- Hrun, Hk.
Qed.

Lemma without_fail (k : nat) (st : state) :
  retired k st → without k st (fail st).
Proof.
  intros Hk. eapply without_trans; [by apply without_unmount|].
  destruct (without_unmount k st Hk) as ((Hlt & Hreq & Hshow) & _).
  unfold fail. split.
  - unfold retired, requesting, showing in *. by destruct (unmount st).
  - exists []. rewrite app_nil_r. by destruct (unmount st).
Qed.

Lemma without_mount (k r : nat) (els : list node) (st : state) :
  r ≠ k → retired k st → without k st (mount r els st).
Proof.
  intros Hr Hk. eapply without_trans; [by apply without_unmount|].
  destruct (without_unmount k st Hk) as ((Hlt & Hreq & Hshow) & _).
  unfold mount. split.
  - unfold retired, requesting, showing in *.
    destruct (unmount st); simpl in *. split_and!; [done..|congruence].
  - eexists. split; [by destruct (unmount st)|]. by repeat constructor.
Qed.

Lemma without_on_document (k r : nat) (doc : node) (st : state) :
  r ≠ k → retired k st → without k st (on_document el r doc st).
Proof.
  intros Hr Hk. unfold on_document.
  destruct (target_selector el) as [sel|]; [|by apply without_fail].
  destruct (selector_throws sel); [by apply without_fail|].
  destruct (getOptionalElement sel doc) as [target|]; [|by apply without_refl].
  destruct (extract target) as [els|]; [|by apply without_fail].
  destruct (length els =? 1); [by apply without_refl|]. by apply without_mount.
Qed.

Lemma without_on_response (k : nat) (doc : node) (st : state) :
  retired k st → without k st (on_response el doc st).
Proof.
  intros Hk. unfold on_response.
  destruct (request st) as [[r u]|] eqn:Hrequest; [|by apply without_refl].
  assert (r ≠ k) as Hr.
  { destruct Hk as (_ & Hreq & _). unfold requesting in Hreq.
    rewrite Hrequest in Hreq. simpl in Hreq. congruence. }
  assert (retired k (set_request None st)) as Hcleared.
  { destruct Hk as (? & ? & ?). by split_and!. }
  assert (without k st (set_request None st)) as Hfirst.
  { split; [done|]. exists []. by rewrite app_nil_r. }
  eapply without_trans; [exact Hfirst|].
  destruct (resolve doc u (sequence (set_request None st))) as [[doc' s']|];
    [|by apply without_fail].
  eapply without_trans; [|apply without_on_document; [done|]].
  - by apply (without_same k (set_request None st)).
  - destruct Hcleared as (? & ? & ?). by split_and!.
Qed.

Lemma without_step (k : nat) (st : state) (e : event) :
  retired k st → without k st (step el st e).
Proof.
  intros Hk. unfold step. destruct (failed st); [by apply without_refl|].
  destruct e as [i|sitemap|doc| |].
  - destruct (gate_step (gate st) i) as [g emits].
    assert (without k st (set_gate g st)) as Hg by by apply without_same.
    destruct emits; [|done]. unfold on_active. simpl.
    destruct (sitemaps st) as [|sitemap waiting].
    + by apply without_same.
    + eapply without_trans; [|apply without_start_run].
      * by apply (without_same k st).
      * destruct Hk as (? & ? & ?). by split_and!.
  - unfold on_sitemap. destruct (actives st) as [|waiting].
    + by apply without_same.
    + eapply without_trans; [|apply without_start_run].
      * by apply (without_same k st).
      * destruct Hk as (? & ? & ?). by split_and!.
  - by apply without_on_response.
  - by apply without_subscribe_content.
  - by apply without_unsubscribe_content.
Qed.

Lemma without_run (k : nat) (events : list event) (st : state) :
  retired k st → without k st (run el events st).
Proof.
  revert st. induction events as [|e events IH]; intros st Hk;
    [by apply without_refl|].
  simpl. eapply without_trans; [by apply without_step|].
  apply IH. by destruct (without_step k st e Hk).
Qed.

(** ** The pairs of [zip] *)









(** ** Effects are never taken back *)



(** ** Where runs start *)

Lemma step_zipped (st : state) (e : event) (sitemap : gset string) :
  zipped st e = Some sitemap →
  ∃ st0, step el st e = start_run el sitemap st0
         ∧ runs st0 = runs st ∧ request st0 = request st
         ∧ mounted st0 = mounted st ∧ body st0 = body st
         ∧ effects st0 = effects st.
Proof.
  unfold zipped, step. destruct (failed st); [done|].
  destruct e as [i|s|doc| |]; try done.
  - destruct (gate_step (gate st) i) as [g emits]. simpl.
    destruct emits; [|done]. unfold on_active. simpl.
    destruct (sitemaps st) as [|s waiting]; [done|]. intros [= ->].
    by eexists.
  - unfold on_sitemap. destruct (actives st) as [|waiting]; [done|].
    intros [= ->]. by eexists.
Qed.


(** ** Runs that end early *)

Lemma reached_retires_next (events : list event) (sequence : nat) :
  let st := run el events (initial sequence) in
  requesting st ≠ Some (runs st) ∧ showing st ≠ Some (runs st)
  ∧ Forall (λ e, effect_run e ≠ runs st) (effects st).
Proof.
  intros st. destruct (consistent_reached events sequence)
    as [Hstarted Hfresh Hlogged _ _ _ _ _ _ _].
  fold st in Hstarted, Hfresh, Hlogged.
  split_and!.
  - unfold requesting. destruct (request st) as [[r u]|] eqn:Hr; [|done].
    destruct (Hfresh r u eq_refl) as (Hlt & _). simpl. intros [= ->]. lia.
  - unfold showing. destruct (mounted st) as [t|] eqn:Ht; [|done].
    pose proof (Hlogged t eq_refl) as Hm.
    eapply Forall_forall in Hstarted; [|exact Hm]. simpl in *.
    intros [= Heq]. lia.
  - eapply Forall_impl; [exact Hstarted|]. simpl. lia.
Qed.

Lemma empty_extraction_keeps_state (k : nat) (doc : node) (st : state)
    (sel : selector) (target : position) (single : node) :
  target_selector el = Some sel →
  getOptionalElement sel doc = Some target →
  extract target = Some [single] →
  on_document el k doc st = st.
Proof.
  unfold on_document. intros -> Htarget Hsingle.
  by rewrite (getOptionalElement_found sel doc target Htarget), Htarget, Hsingle.
Qed.

(** ** One overlay at a time *)



End PipelineFacts.

Lemma app_empty_r (s : string) : s +:+ "" = s.
Proof.
  induction s as [|c s IH]; [done|].
  change (String c (s +:+ "") = String c s). by rewrite IH.
Qed.

Lemma toString_cleared (url : URL) :
  toString (clear_search_hash url) = location url.
Proof. unfold toString. simpl. by rewrite !app_empty_r. Qed.

(** C6. A run starts where [zip] pairs a sitemap with an activation, by
    testing the sitemap for the URL of the link with its query and fragment
    cleared, which is the URL up to the query.  If the sitemap does not hold
    it, the run ends there: the pending request, the mounted tooltip, the
    body and the effects are as they were, and whatever happens later, no
    effect ever belongs to that run: no request is issued for it, no tooltip
    mounted, no overlay inserted. *)
Theorem sitemap_miss_ends_run `{Environment} (el : URL)
    (events later : list event) (sequence : nat) (e : event)
    (sitemap : gset string) :
  let st := run el events (initial sequence) in
  let st' := step el st e in
  zipped st e = Some sitemap →
  toString (clear_search_hash el) ∉ sitemap →
  toString (clear_search_hash el) = location el
  ∧ runs st' = S (runs st)
  ∧ request st' = request st
  ∧ mounted st' = mounted st
  ∧ body st' = body st
  ∧ effects st' = effects st
  ∧ Forall (λ x, effect_run x ≠ runs st) (effects (run el later st')).
Proof.
  intros st st' Hzipped Hmiss.
  destruct (step_zipped el st e sitemap Hzipped)
    as (st0 & Hstep & Hruns & Hrequest & Hmounted & Hbody & Heffects).
  assert (st' = set_runs (S (runs st0)) st0) as Hst'.
  { unfold st'. rewrite Hstep. unfold start_run.
    by rewrite bool_decide_eq_false_2. }
  destruct (reached_retires_next el events sequence) as (Hreq & Hshow & Hold).
  fold st in Hreq, Hshow, Hold.
  assert (retired (runs st) st') as Hretired.
  { rewrite Hst'. unfold retired, requesting, showing in *. simpl.
    rewrite Hruns, Hrequest, Hmounted. split_and!; [lia|done..]. }
  destruct (without_run el (runs st) later st' Hretired)
    as (_ & new & -> & Hnew).
  rewrite Hst'. simpl. rewrite Hruns, Heffects. split_and!; try done.
  - apply toString_cleared.
  - by apply Forall_app.
Qed.

Lemma sitemap_miss_ends_run_witness :
  let events :=
    [GateInput (Enabled true); GateInput (Focus false); GateInput (Hover true)] in
  let later :=
    [Response Sample.guide; TooltipShows; SitemapEmits Sample.guide_sitemap;
     GateInput (Hover false); GateInput (Hover true); Response Sample.guide;
     TooltipShows] in
  Forall (λ x, effect_run x ≠ 0)
    (effects (@run Sample.env Sample.guide_url
                (events ++ SitemapEmits ∅ :: later) (initial 0))).
Proof.
  intros events later.
  destruct (@sitemap_miss_ends_run Sample.env Sample.guide_url events later
              0 (SitemapEmits ∅) ∅ eq_refl (not_elem_of_empty _))
    as (_ & _ & _ & _ & _ & _ & Hlater).
  exact Hlater.
Defined.

(** C7. For a headline that is a heading element, whose next element
    sibling is a heading too and whose parent does not have the class
    [doc], [extract] returns one node, the new [h3].  And whenever the
    target found in the resolved document yields one node only, the third
    [switchMap] returns [EMPTY]: the response leaves the mounted tooltip, the
    body and the effects as they were, nothing is pending any more, and
    whatever happens later the run mounts no tooltip and inserts no
    overlay. *)
Theorem lone_heading_shows_nothing `{Environment} (el : URL)
    (headline : position) (next : node) :
  is_heading (element headline) = true →
  nextElementSibling headline = Some next →
  is_heading next = true →
  from_option (λ parent, classList_contains "doc" (element parent)) false
    (parentElement headline) = false →
  extract headline = Some [newHeading headline]
  ∧ tagName (newHeading headline) = "h3"
  ∧ ∀ (events later : list event) (sequence k : nat) (url : string)
      (doc resolved_doc : node) (sequence' : nat) (sel : selector)
      (target : position) (single : node),
      let st := run el events (initial sequence) in
      let st' := step el st (Response doc) in
      failed st = false →
      request st = Some (k, url) →
      resolve doc url (Pipeline.sequence st) = Some (resolved_doc, sequence') →
      target_selector el = Some sel →
      getOptionalElement sel resolved_doc = Some target →
      extract target = Some [single] →
      request st' = None
      ∧ mounted st' = mounted st
      ∧ body st' = body st
      ∧ effects st' = effects st
      ∧ Forall (λ e, (∀ els, e ≠ Mounted k els) ∧ (∀ o, e ≠ Inserted k o))
          (effects (run el later st')).
Proof.
  intros Hheading Hnext Hnext_heading Hparent. split_and!.
  - assert (bare_anchor headline = false) as Hbare.
    { unfold bare_anchor. by rewrite (heading_not_anchor _ Hheading). }
    rewrite (extract_plain headline Hbare Hparent). unfold nextElements.
    rewrite (collect_first_rejected default_predicate _ next Hnext); [done|].
    unfold default_predicate. by rewrite Hnext_heading.
  - done.
  - intros events later sequence k url doc resolved_doc sequence' sel target
      single st st' Hfailed Hrequest Hresolve Hsel Htarget Hsingle.
    assert (st' = set_sequence sequence' (set_request None st)) as Hst'.
    { unfold st', step, on_response. rewrite Hfailed, Hrequest. simpl.
      rewrite Hresolve.
      by apply (empty_extraction_keeps_state el k resolved_doc _ sel target single). }
    destruct (consistent_reached el events sequence)
      as [Hstarted Hfresh Hlogged Hinserted _ _ _ _ _ _].
    fold st in Hstarted, Hfresh, Hlogged, Hinserted.
    destruct (Hfresh k url Hrequest) as (Hlt & _ & Hnot_mounted).
    assert (retired k st') as Hretired.
    { rewrite Hst'. unfold retired, requesting, showing. simpl.
      split_and!; [done..|].
      destruct (mounted st) as [t|] eqn:Ht; [|done]. simpl. intros [= <-].
      by apply (Hnot_mounted (tooltip_els t)), Hlogged. }
    destruct (without_run el k later st' Hretired) as (_ & new & -> & Hnew).
    rewrite Hst'. simpl. split_and!; try done.
    apply Forall_app. split.
    + apply Forall_forall. intros e He. split.
      * intros els ->. by apply (Hnot_mounted els).
      * intros o ->. destruct (Hinserted k o He) as [els Hm].
        by apply (Hnot_mounted els).
    + eapply Forall_impl; [exact Hnew|]. intros e He. simpl in He.
      split; intros ? ->; by apply He.
Qed.

Lemma lone_heading_shows_nothing_witness :
  @extract Sample.env Sample.empty_section
  = Some [Sample.el "h3" [] [Text "Install"]].
Proof.
  apply (@lone_heading_shows_nothing Sample.env Sample.guide_url
           Sample.empty_section
           (Sample.el "h2" [("id", "next")] [Text "Next"]));
    reflexivity.
Defined.

(** The guards of [mountLink]: the pipeline exists for an anchor, in a
    browser with hover, with the feature or the opt-in attribute, without a
    title, and with a link to the host of the page; it starts empty. *)
Lemma mountLink_guards (w : window) (el : link) (sequence : nat) (st : state) :
  mountLink w el sequence = Some st →
  is_HTMLAnchorElement el = true
  ∧ hover_matches w = true
  ∧ (feature_instant_preview w = true ∨ has_data_preview el = true)
  ∧ link_title el = ""
  ∧ link_href el ≠ ""
  ∧ link_host el = location_host w
  ∧ st = initial sequence.
Proof.
  unfold mountLink, truthy.
  destruct (is_HTMLAnchorElement el), (hover_matches w); simpl; try done.
  destruct (feature_instant_preview w || has_data_preview el) eqn:Hopt;
    simpl; [|done].
  repeat case_bool_decide; simpl; try done.
  intros [= <-]. apply orb_true_iff in Hopt.
  by split_and!.
Qed.




(** Without the assumption on [mountTooltip2] the body can hold more: a
    tooltip that subscribes to [content$] twice has two overlays in it. *)
Example two_subscriptions_two_overlays :
  let events := take 7 Sample.hover_leave_hover ++ [TooltipShows; TooltipShows] in
  length (body (@run Sample.env Sample.guide_url events (initial 0))) = 2
  ∧ ¬ @subscribes_once Sample.env Sample.guide_url 0 events.
Proof.
  split; [vm_compute; reflexivity|].
  intros Honce.
  specialize (Honce (take 7 Sample.hover_leave_hover ++ [TooltipShows]) []
                eq_refl).
  vm_compute in Honce. discriminate Honce.
Qed.

(* ------------------------------------------------------------------------- *)
(** * Further properties: the pattern of absolute URLs                        *)
(* ------------------------------------------------------------------------- *)

Lemma app_cons (c : ascii) (s t : string) :
  String c s +:+ t = String c (s +:+ t).
Proof. reflexivity. Qed.

Lemma prefix_split (p s : string) :
  String.prefix p s = true ↔ ∃ rest, s = p +:+ rest.
Proof.
  revert s. induction p as [|c p IH]; intros s.
  - split; [by exists s|by destruct s].
  - destruct s as [|d s]; simpl.
    + split; [done|]. intros [rest Hrest]. by rewrite app_cons in Hrest.
    + destruct (Ascii.ascii_dec c d) as [->|Hne].
      * rewrite IH. split; intros [rest Hrest]; exists rest.
        -- by rewrite app_cons, Hrest.
        -- rewrite app_cons in Hrest. by injection Hrest.
      * split; [done|]. intros [rest Hrest]. rewrite app_cons in Hrest.
        injection Hrest as Hc _. congruence.
Qed.

Lemma skip_letters_split (s : string) :
  ∃ scheme,
    s = scheme +:+ snd (skip_letters s)
    ∧ letters scheme = true
    ∧ String.length scheme = fst (skip_letters s).
Proof.
  induction s as [|c s (scheme & Hs & Hletters & Hlength)]; simpl.
  - by exists "".
  - destruct (is_letter c) eqn:Hc.
    + destruct (skip_letters s) as [k r]. simpl in *.
      exists (String c scheme). rewrite app_cons, <-Hs. simpl.
      by rewrite Hc, Hletters, Hlength.
    + by exists "".
Qed.

Lemma skip_letters_scheme (scheme rest : string) :
  letters scheme = true →
  skip_letters (scheme +:+ String ":" rest)
  = (String.length scheme, String ":" rest).
Proof.
  induction scheme as [|c scheme IH]; [done|].
  intros [Hc Hletters]%andb_true_iff. rewrite app_cons.
  cbn [skip_letters String.length]. by rewrite Hc, (IH Hletters).
Qed.

(** X1. The test [/^(?:[a-z]+:)?\/\//i] accepts exactly the values that
    start with [//] or with a scheme of one or more ASCII letters of either
    case followed by [://].  So [mailto:], [data:] and [javascript:] values,
    fragments and paths are not absolute for [resolve], and go to the URL
    constructor. *)
Theorem absolute_pattern (value : string) :
  is_absolute value = true ↔
  (∃ rest, value = "//" +:+ rest)
  ∨ (∃ scheme rest,
       scheme ≠ "" ∧ letters scheme = true
       ∧ value = scheme +:+ "://" +:+ rest).
Proof.
  unfold is_absolute. rewrite orb_true_iff, prefix_split. split.
  - intros [Hslashes|Hscheme]; [by left|right].
    destruct (skip_letters_split value) as (scheme & Hvalue & Hletters & Hlength).
    destruct (skip_letters value) as [k after_scheme]. simpl in *.
    apply andb_true_iff in Hscheme as [Hk [rest ->]%prefix_split].
    exists scheme, rest. split_and!; [|done..].
    intros ->. simpl in Hlength. subst k. done.
  - intros [Hslashes|(scheme & rest & Hne & Hletters & ->)]; [by left|right].
    change (scheme +:+ "://" +:+ rest)
      with (scheme +:+ String ":" ("//" +:+ rest)).
    rewrite (skip_letters_scheme scheme _ Hletters).
    apply andb_true_iff. split.
    + destruct scheme; [done|]. done.
    + apply prefix_split. by exists rest.
Qed.

(* ------------------------------------------------------------------------- *)
(** * Further properties: the content extractor                               *)
(* ------------------------------------------------------------------------- *)

Lemma collect_sublist (predicate : node → bool) (siblings : list node) :
  collect predicate siblings `sublist_of` siblings.
Proof.
  induction siblings as [|[d|t a cs] siblings IH]; simpl.
  - constructor.
  - by apply sublist_cons.
  - destruct (predicate (Elem t a cs)); [by apply sublist_skip|].
    apply sublist_nil_l.
Qed.

Lemma collect_accepted (predicate : node → bool) (siblings : list node) :
  Forall (λ n, is_element n = true ∧ predicate n = true)
    (collect predicate siblings).
Proof.
  induction siblings as [|[d|t a cs] siblings IH]; simpl; [done..|].
  destruct (predicate (Elem t a cs)) eqn:Hp; by constructor.
Qed.

Lemma default_predicate_rejects (n : node) :
  default_predicate n = true →
  is_heading n = false ∧ classList_contains "doc" n = false.
Proof. unfold default_predicate. by intros ?%negb_true_iff%orb_false_iff. Qed.

(** X2. [extract] throws in one case only: the headline is a bare anchor
    and has no parent element. *)
Theorem extract_throws `{Environment} (headline : position) :
  extract headline = None ↔
  bare_anchor headline = true ∧ parentElement headline = None.
Proof.
  unfold extract. destruct (bare_anchor headline).
  - destruct (parentElement headline); simpl; intuition congruence.
  - destruct (parentElement headline) as [parent|]; [|intuition congruence].
    destruct (classList_contains "doc" (element parent)); intuition congruence.
Qed.

(** X3. What [extract] returns starts with a new [h3] without attributes,
    so without the [id] of the headline, whose child nodes are what the
    parser builds inside an [h3] from the [innerHTML] of the headline.  The
    rest are elements, never text nodes, in document order: the elements
    right after the headline up to the first heading or [.doc] element, then
    siblings after its parent.  The siblings of the parent are looked at
    only for a bare anchor or under a [.doc] parent; for a bare anchor none
    of them is a heading or a [.doc] element either. *)
Theorem extract_shape `{Environment} (headline : position) (els : list node) :
  extract headline = Some els →
  ∃ own more,
    els = Elem "h3" ∅ (copy_innerHTML "h3" (element headline)) :: own ++ more
    ∧ (∃ rest,
         element_siblings (after headline) = own ++ rest
         ∧ from_option (λ n, is_heading n || classList_contains "doc" n) true
             (head rest) = true)
    ∧ own `sublist_of` after headline
    ∧ more `sublist_of` from_option after [] (parentElement headline)
    ∧ Forall (λ n, is_element n = true) (own ++ more)
    ∧ Forall (λ n, is_heading n = false ∧ classList_contains "doc" n = false) own
    ∧ (bare_anchor headline = true →
       Forall (λ n, is_heading n = false ∧ classList_contains "doc" n = false)
         more)
    ∧ (bare_anchor headline = false →
       from_option (λ parent, classList_contains "doc" (element parent)) false
         (parentElement headline) = false →
       more = []).
Proof.
  intros Hels.
  assert (Forall (λ n, is_heading n = false ∧ classList_contains "doc" n = false)
            (nextElements headline default_predicate)) as Hown.
  { eapply Forall_impl; [apply collect_accepted|].
    intros n [_ Hn]. by apply default_predicate_rejects. }
  assert (∀ p predicate, Forall (λ n, is_element n = true) (nextElements p predicate))
    as Helements.
  { intros p predicate. eapply Forall_impl; [apply collect_accepted|].
    by intros n [? _]. }
  assert (∃ rest,
            element_siblings (after headline) =
            nextElements headline default_predicate ++ rest
            ∧ from_option (λ n, is_heading n || classList_contains "doc" n) true
                (head rest) = true) as Hrun.
  { destruct (collect_prefix default_predicate (after headline))
      as (rest & Heq & _ & Hrest).
    exists rest. split; [done|]. destruct rest as [|n rest]; [done|].
    simpl in *. unfold default_predicate in Hrest.
    by apply negb_false_iff in Hrest. }
  exists (nextElements headline default_predicate).
  unfold extract in Hels. destruct (bare_anchor headline) eqn:Hbare.
  - destruct (parentElement headline) as [parent|]; simpl in Hels; [|done].
    injection Hels as <-.
    exists (nextElements parent default_predicate).
    split_and!; try done.
    + apply collect_sublist.
    + apply collect_sublist.
    + apply Forall_app. split; apply Helements.
    + intros _. eapply Forall_impl; [apply collect_accepted|].
      intros n [_ Hn]. by apply default_predicate_rejects.
  - destruct (parentElement headline) as [parent|]; simpl.
    + destruct (classList_contains "doc" (element parent)) eqn:Hdoc.
      * injection Hels as <-. exists (nextElements parent doc_predicate).
        split_and!; try done.
        -- apply collect_sublist.
        -- apply collect_sublist.
        -- apply Forall_app. split; apply Helements.
      * injection Hels as <-. exists [].
        rewrite app_nil_r. split_and!; try done.
        -- apply collect_sublist.
        -- apply sublist_nil_l.
    + injection Hels as <-. exists [].
      rewrite app_nil_r. split_and!; try done.
      apply collect_sublist.
Qed.

Lemma extract_shape_witness :
  ∃ own more,
    [Sample.el "h3" [] [Text "f"]; Sample.signature; Sample.contents]
    = Elem "h3" ∅ [Text "f"] :: own ++ more
    ∧ Forall (λ n, is_element n = true) (own ++ more).
Proof.
  destruct (@extract_shape Sample.env Sample.block_heading
              [Sample.el "h3" [] [Text "f"]; Sample.signature; Sample.contents]
              eq_refl)
    as (own & more & Hels & _ & _ & _ & Helements & _).
  by exists own, more.
Defined.

(* ------------------------------------------------------------------------- *)
(** * Further properties: the URL resolver                                    *)
(* ------------------------------------------------------------------------- *)

Lemma length_app_string (s t : string) :
  String.length (s +:+ t) = String.length s + String.length t.
Proof.
  induction s as [|c s IH]; [done|]. rewrite app_cons. simpl. by rewrite IH.
Qed.

Lemma app_changes (s t : string) : t ≠ "" → s +:+ t ≠ s.
Proof.
  intros Ht Heq. apply (f_equal String.length) in Heq.
  rewrite length_app_string in Heq. destruct t; [done|]. simpl in Heq. lia.
Qed.

Lemma app_inj_suffix (s1 s2 t : string) : s1 +:+ t = s2 +:+ t → s1 = s2.
Proof.
  revert s2. induction s1 as [|c s1 IH]; intros [|d s2] Heq; [done|..].
  - apply (f_equal String.length) in Heq.
    rewrite !length_app_string in Heq. simpl in Heq. lia.
  - apply (f_equal String.length) in Heq.
    rewrite !length_app_string in Heq. simpl in Heq. lia.
  - rewrite !app_cons in Heq. injection Heq as -> Heq. by rewrite (IH _ Heq).
Qed.

Lemma preview_suffix_not_empty (sequence : nat) : preview_suffix sequence ≠ "".
Proof. done. Qed.

Lemma textContent_children (t : string) (a : gmap string string) (cs : list node) :
  textContent (Elem t a cs) = foldr (λ c text, textContent c +:+ text) "" cs.
Proof. simpl. induction cs as [|c cs IH]; [done|]. simpl. by rewrite IH. Qed.

Lemma for_elements_try_text
    (body : string → gmap string string → option (gmap string string))
    (n n' : node) :
  for_elements_try body n = Some n' → textContent n' = textContent n.
Proof.
  revert n'. induction n as [d|t a cs IH] using node_children_ind;
    intros n' Hn; simpl in Hn.
  - by injection Hn as <-.
  - destruct (body t a) as [a'|]; simpl in Hn; [|done].
    destruct (mapM (for_elements_try body) cs) as [cs'|] eqn:Hcs;
      simpl in Hn; [|done].
    injection Hn as <-. rewrite !textContent_children.
    apply mapM_Some in Hcs.
    induction Hcs as [|c c' cs cs' Hc Hcs IHcs]; [done|].
    apply Forall_cons in IH as [Hhead Htail]. simpl.
    by rewrite (Hhead c' Hc), (IHcs Htail).
Qed.

Section ResolverFrame.
Context `{Environment}.

Lemma resolved_names (base : string) (sequence : nat) (e e' : node) (key : string) :
  resolved base sequence e e' →
  is_Some (getAttribute key e') ↔ is_Some (getAttribute key e).
Proof.
  intros (_ & linked & Hl & Ha). unfold getAttribute. rewrite Ha.
  rewrite suffix_identifiers_spec.
  assert (is_Some (linked !! key) ↔ is_Some (attributes e !! key)) as <-.
  { rewrite replace_links_first in Hl.
    destruct (first_relative (attributes e)) as [k|] eqn:Hfirst;
      [|by injection Hl as <-].
    destruct (attributes e !! k) as [v|] eqn:Hv; simpl in Hl; [|done].
    destruct (new_URL v base) as [u|]; simpl in Hl; [|done].
    injection Hl as <-. destruct (reflects (tagName e) k); [|done].
    destruct (decide (k = key)) as [->|Hne].
    - rewrite lookup_insert_eq, Hv. split; by eexists.
    - by rewrite lookup_insert_ne. }
  destruct (has_identifier linked && bool_decide (key ∈ identifier_keys));
    [|done].
  by rewrite fmap_is_Some.
Qed.

(** X4. [resolve] changes attribute values and nothing else.  The text of
    the document is the same, and so are its elements, their order and
    their tags; every element has the attributes it had, by name; an
    attribute other than [href], [src], [id], [for] and [name] has the value
    it had; and an element without [for] and without a [name] that starts
    with [__] keeps every value but that of its first relative link: the
    [id] of a heading is left as the fragment of a link names it. *)
Theorem resolve_changes_values_only (document : node) (base : string)
    (sequence : nat) (resolved_document : node) (sequence' : nat) :
  resolve document base sequence = Some (resolved_document, sequence') →
  textContent resolved_document = textContent document
  ∧ Forall2 (λ e e',
       tagName e' = tagName e
       ∧ (∀ key, is_Some (getAttribute key e') ↔ is_Some (getAttribute key e))
       ∧ (∀ key, key ∉ ["href"; "src"; "id"; "for"; "name"] →
            getAttribute key e' = getAttribute key e)
       ∧ (has_identifier (attributes e) = false →
          ∀ key, first_relative (attributes e) ≠ Some key →
                 getAttribute key e' = getAttribute key e))
      (elements document) (elements resolved_document).
Proof.
  intros Hr. split.
  - unfold resolve in Hr.
    destruct (for_elements_try (replace_links base) document) as [linked|] eqn:Hl;
      simpl in Hr; [|done].
    injection Hr as <- _.
    rewrite (for_elements_try_text _ _ _ (for_elements_as_try _ linked)).
    by apply (for_elements_try_text (replace_links base)).
  - apply resolve_elements in Hr as [_ Hr].
    eapply Forall2_impl; [exact Hr|].
    intros e e' He. split_and!.
    + by destruct He.
    + intros key. by apply (resolved_names base sequence).
    + intros key Hkey.
      rewrite (resolved_attribute base sequence e e' key He).
      rewrite decide_False.
      * rewrite bool_decide_eq_false_2, andb_false_r; [done|].
        unfold identifier_keys. intros Hin. apply Hkey.
        by do 2 apply list_elem_of_further.
      * intros Hfirst. apply first_relative_link in Hfirst.
        apply Hkey. destruct Hfirst as [-> | ->];
          [apply list_elem_of_here|apply list_elem_of_further, list_elem_of_here].
    + intros Hid key Hkey.
      rewrite (resolved_attribute base sequence e e' key He).
      by rewrite decide_False, Hid.
Qed.

End ResolverFrame.

Lemma resolve_changes_values_only_witness :
  textContent Sample.tabs_once = textContent Sample.tabs.
Proof.
  refine (proj1 (@resolve_changes_values_only Sample.env Sample.tabs
                   "https://example.com/guide/" 7 Sample.tabs_once 8 _)).
  vm_compute. reflexivity.
Defined.

Lemma app_empty (s t : string) : s +:+ t = "" → s = "".
Proof. by destruct s. Qed.

Lemma suffixed_inj (suffix : string) : Inj (=) (=) (suffixed suffix).
Proof.
  intros v1 v2. unfold suffixed, truthy.
  repeat case_bool_decide; intros Heq.
  - by apply (app_inj_suffix _ _ suffix).
  - subst v2. by apply app_empty in Heq.
  - subst v1. symmetry in Heq. by apply app_empty in Heq.
  - congruence.
Qed.

Section Identifiers.
Context `{Environment}.

(** X5. The identifiers the second loop of [resolve] rewrites stay paired.
    Take two elements it selects, each with one of [id], [for] and [name]:
    after [resolve] the two attributes are equal if and only if they were
    before, so a label still names its field and no two identifiers
    collide that did not before; and a value that is not empty is no longer
    what it was, so it has left the names of the host page. *)
Theorem identifiers_stay_paired (document : node) (base : string)
    (sequence : nat) (resolved_document : node) (sequence' : nat)
    (i j : nat) (e1 e2 e1' e2' : node) (key1 key2 value1 value2 : string) :
  resolve document base sequence = Some (resolved_document, sequence') →
  elements document !! i = Some e1 →
  elements resolved_document !! i = Some e1' →
  elements document !! j = Some e2 →
  elements resolved_document !! j = Some e2' →
  has_identifier (attributes e1) = true →
  has_identifier (attributes e2) = true →
  key1 ∈ identifier_keys → key2 ∈ identifier_keys →
  getAttribute key1 e1 = Some value1 →
  getAttribute key2 e2 = Some value2 →
  (getAttribute key1 e1' = getAttribute key2 e2' ↔ value1 = value2)
  ∧ (value1 ≠ "" →
     getAttribute key1 e1' = Some (value1 +:+ preview_suffix sequence)
     ∧ getAttribute key1 e1' ≠ getAttribute key1 e1).
Proof.
  intros Hr Hi Hi' Hj Hj' Hid1 Hid2 Hk1 Hk2 Hv1 Hv2.
  apply resolve_elements in Hr as [_ Hr].
  pose proof (Forall2_lookup_lr _ _ _ _ _ _ Hr Hi Hi') as He1.
  pose proof (Forall2_lookup_lr _ _ _ _ _ _ Hr Hj Hj') as He2.
  rewrite (resolved_identifier base sequence e1 e1' key1 value1 He1 Hk1 Hid1 Hv1).
  rewrite (resolved_identifier base sequence e2 e2' key2 value2 He2 Hk2 Hid2 Hv2).
  split.
  - split; [|by intros ->].
    intros Heq. injection Heq as Heq. by apply suffixed_inj in Heq.
  - intros Hne. unfold suffixed, truthy. rewrite bool_decide_eq_true_2 by done.
    split; [done|]. rewrite Hv1. intros Heq. injection Heq as Heq.
    by apply app_changes in Heq.
Qed.

(** X6. The second loop selects by [name] and [for] and not by [id]: an
    element without [for] and without a [name] that starts with [__] keeps
    its [id], while a [for] that names it is rewritten.  After [resolve] the
    label no longer names the field. *)
Theorem unselected_target_is_lost (document : node) (base : string)
    (sequence : nat) (resolved_document : node) (sequence' : nat)
    (i j : nat) (target label target' label' : node) (value : string) :
  resolve document base sequence = Some (resolved_document, sequence') →
  elements document !! i = Some target →
  elements resolved_document !! i = Some target' →
  elements document !! j = Some label →
  elements resolved_document !! j = Some label' →
  has_identifier (attributes target) = false →
  getAttribute "id" target = Some value →
  getAttribute "for" label = Some value →
  value ≠ "" →
  getAttribute "id" target' = Some value
  ∧ getAttribute "for" label' = Some (value +:+ preview_suffix sequence)
  ∧ getAttribute "for" label' ≠ getAttribute "id" target'.
Proof.
  intros Hr Hi Hi' Hj Hj' Hid Htarget Hlabel Hne.
  apply resolve_elements in Hr as [_ Hr].
  pose proof (Forall2_lookup_lr _ _ _ _ _ _ Hr Hi Hi') as He1.
  pose proof (Forall2_lookup_lr _ _ _ _ _ _ Hr Hj Hj') as He2.
  assert (getAttribute "id" target' = Some value) as Hkept.
  { rewrite (resolved_attribute base sequence target target' "id" He1).
    rewrite decide_False, Hid; [done|].
    intros Hfirst. by apply first_relative_link in Hfirst as [?|?]. }
  assert (getAttribute "for" label' = Some (value +:+ preview_suffix sequence))
    as Hrewritten.
  { assert (has_identifier (attributes label) = true) as Hsel.
    { unfold has_identifier. unfold getAttribute in Hlabel. rewrite Hlabel.
      rewrite (bool_decide_eq_true_2 (is_Some (Some value))) by by eexists.
      apply orb_true_r. }
    rewrite (resolved_identifier base sequence label label' "for" value He2);
      [|by apply (bool_decide_unpack _)|done|done].
    unfold suffixed, truthy. by rewrite bool_decide_eq_true_2. }
  split_and!; [done|done|].
  rewrite Hkept, Hrewritten. intros Heq. injection Heq as Heq.
  by apply app_changes in Heq.
Qed.

End Identifiers.

Lemma identifiers_stay_paired_witness :
  let field := Sample.el "input"
    [("name", "__tabbed_1"); ("id", "__tabbed_1_1"); ("type", "radio")] [] in
  let label := Sample.el "label" [("for", "__tabbed_1_1")] [Text "Tab"] in
  let field' := Sample.el "input"
    [("name", "__tabbed_1$preview_7"); ("id", "__tabbed_1_1$preview_7");
     ("type", "radio")] [] in
  let label' := Sample.el "label" [("for", "__tabbed_1_1$preview_7")] [Text "Tab"] in
  elements Sample.tabs !! 1 = Some field
  ∧ elements Sample.tabs !! 2 = Some label
  ∧ (getAttribute "id" field' = getAttribute "for" label'
     ↔ "__tabbed_1_1" = "__tabbed_1_1").
Proof.
  intros field label field' label'.
  split; [vm_compute; reflexivity|]. split; [vm_compute; reflexivity|].
  refine (proj1 (@identifiers_stay_paired Sample.env Sample.tabs
                   "https://example.com/guide/" 7 Sample.tabs_once 8
                   1 2 field label field' label' "id" "for"
                   "__tabbed_1_1" "__tabbed_1_1" _ _ _ _ _ _ _ _ _ _ _));
    try (vm_compute; reflexivity);
    apply (bool_decide_unpack _); vm_compute; exact I.
Defined.

Lemma unselected_target_is_lost_witness :
  let field := Sample.el "input" [("id", "q")] [] in
  let label := Sample.el "label" [("for", "q")] [Text "Query"] in
  let label' := Sample.el "label" [("for", "q$preview_0")] [Text "Query"] in
  (fst <$> @resolve Sample.env Sample.field "https://example.com/guide/" 0)
  = Some (Sample.el "p" [] [field; label'])
  ∧ getAttribute "for" label' ≠ getAttribute "id" field.
Proof.
  intros field label label'.
  split; [vm_compute; reflexivity|].
  refine (proj2 (proj2 (@unselected_target_is_lost Sample.env Sample.field
                   "https://example.com/guide/" 0
                   (Sample.el "p" [] [field; label']) 1
                   1 2 field label field label' "q" _ _ _ _ _ _ _ _ _)));
    try (vm_compute; reflexivity).
  discriminate.
Defined.

(* ------------------------------------------------------------------------- *)
(** * Further properties: the preference                                      *)
(* ------------------------------------------------------------------------- *)

Lemma subscriber_marker (value : bool) (p : page) :
  instantPreview (subscriber value p) = Some (onoff value).
Proof. unfold subscriber. by destruct (list_find _ _) as [[k i]|]. Qed.

(** The subscriber changes no name, no value and no group of an input. *)
Lemma subscriber_fields (value : bool) (p : page) :
  (λ i, (input_name i, input_value i, radio_group i))
    <$> inputs (subscriber value p) =
  (λ i, (input_name i, input_value i, radio_group i)) <$> inputs p.
Proof.
  rewrite subscriber_inputs.
  destruct (list_find _ _) as [[k i]|]; [|done].
  apply list_eq. intros j.
  rewrite !list_lookup_fmap, list_lookup_imap.
  destruct (inputs p !! j) as [x|]; [|done]. simpl. unfold check.
  by repeat case_decide.
Qed.

Lemma subscribed_fields (emissions : list bool) (p : page) :
  (λ i, (input_name i, input_value i, radio_group i))
    <$> inputs (subscribed emissions p) =
  (λ i, (input_name i, input_value i, radio_group i)) <$> inputs p.
Proof.
  revert p. induction emissions as [|v emissions IH]; intros p; [done|].
  unfold subscribed in *. simpl. by rewrite IH, subscriber_fields.
Qed.

Lemma fields_names_values (l1 l2 : list input) :
  (λ i, (input_name i, input_value i, radio_group i)) <$> l1 =
  (λ i, (input_name i, input_value i, radio_group i)) <$> l2 →
  (λ i, (input_name i, input_value i)) <$> l1 =
  (λ i, (input_name i, input_value i)) <$> l2.
Proof.
  intros Heq. apply (f_equal (fmap fst)) in Heq.
  by rewrite <- !list_fmap_compose in Heq.
Qed.

(** The input the selector finds depends on names and values only. *)
Lemma list_find_fields (value : string) (l1 l2 : list input) (k : nat) (i1 : input) :
  (λ i, (input_name i, input_value i, radio_group i)) <$> l1 =
  (λ i, (input_name i, input_value i, radio_group i)) <$> l2 →
  list_find (is_toggle_input value) l1 = Some (k, i1) →
  ∃ i2, list_find (is_toggle_input value) l2 = Some (k, i2)
        ∧ radio_group i2 = radio_group i1.
Proof.
  revert l2 k. induction l1 as [|x l1 IH]; intros [|y l2] k Heq Hfind; try done.
  injection Heq as Hname Hvalue Hgroup Heq.
  cbn [list_find] in *.
  destruct (decide (is_toggle_input value x)) as [Hx|Hx].
  - injection Hfind as <- <-. exists y. rewrite decide_True; [done|].
    destruct Hx as [? ?]. split; congruence.
  - rewrite decide_False
      by (intros [? ?]; apply Hx; split; congruence).
    destruct (list_find (is_toggle_input value) l1) as [[k1 i]|] eqn:Hl1;
      [|done].
    injection Hfind as <- <-.
    destruct (IH l2 k1 Heq eq_refl) as (i2 & -> & ?). by exists i2.
Qed.

Lemma subscriber_checks (value : bool) (p : page) (k : nat) (i : input) :
  list_find (is_toggle_input (onoff value)) (inputs p) = Some (k, i) →
  inputs (subscriber value p) !! k =
  Some (Input "__instant_preview" (onoff value) true (radio_group i)).
Proof.
  intros Hfind. rewrite subscriber_inputs, Hfind.
  apply list_find_Some in Hfind as (Hk & [Hname Hvalue] & _).
  rewrite list_lookup_imap, Hk. simpl. unfold check.
  by rewrite decide_True, Hname, Hvalue.
Qed.

Lemma instantPreviewEnabled_last (p : page) (changes : list string) :
  ∃ earlier current, instantPreviewEnabled p changes = earlier ++ [current].
Proof.
  unfold instantPreviewEnabled. destruct (toggle p); simpl.
  - pose proof (distinct_replayed (default true (md_get "instant.preview" p))
                  (map (λ value, bool_decide (value = "on")) changes)) as Hlast.
    apply last_Some in Hlast as [earlier Hlast]. eauto.
  - by exists [], true.
Qed.

(** X7. The page mirrors the signal.  Whatever the [change] events are,
    once the subscriber has seen the emissions of [instantPreviewEnabled$]
    - the stored setting is the value the signal holds, the one
      [shareReplay(1)] hands to a late subscriber;
    - the marker on the body spells it, [on] or [off];
    - the first input of the toggle with that value is checked;
    - no input has changed its name or its value;
    - and a page loaded later with this storage and the form starts its
      signal from that value. *)
Theorem preference_mirrored (p : page) (changes : list string) :
  let signal := instantPreviewEnabled p changes in
  let p' := subscribed signal p in
  ∃ current,
    Rx.replayed signal = Some current
    ∧ md_get "instant.preview" p' = Some current
    ∧ instantPreview p' = Some (onoff current)
    ∧ (∀ k i,
         list_find (is_toggle_input (onoff current)) (inputs p) = Some (k, i) →
         inputs p' !! k =
         Some (Input "__instant_preview" (onoff current) true (radio_group i)))
    ∧ (λ i, (input_name i, input_value i)) <$> inputs p' =
      (λ i, (input_name i, input_value i)) <$> inputs p
    ∧ (∀ next changes',
         toggle next = true → storage next = storage p' →
         head (instantPreviewEnabled next changes') = Some current).
Proof.
  intros signal p'. subst p'.
  destruct (instantPreviewEnabled_last p changes) as (earlier & current & Hsignal).
  fold signal in Hsignal. rewrite Hsignal. exists current.
  assert (subscribed (earlier ++ [current]) p =
          subscriber current (subscribed earlier p)) as ->.
  { unfold subscribed. by rewrite fold_left_app. }
  split_and!.
  - unfold Rx.replayed. by rewrite last_snoc.
  - apply subscriber_storage.
  - apply subscriber_marker.
  - intros k i Hfind.
    destruct (list_find_fields (onoff current) (inputs p)
                (inputs (subscribed earlier p)) k i) as (i' & Hfind' & <-);
      [by rewrite subscribed_fields|done|].
    by apply (subscriber_checks current _ k i').
  - apply fields_names_values. by rewrite subscriber_fields, subscribed_fields.
  - intros next changes' Htoggle Hstorage.
    unfold instantPreviewEnabled. rewrite Htoggle. cbn [negb].
    etrans; [apply distinct_head|].
    unfold md_get. by rewrite Hstorage, subscriber_storage.
Qed.

(* ------------------------------------------------------------------------- *)
(** * Further properties: the activation gate                                 *)
(* ------------------------------------------------------------------------- *)

Lemma distinct_elem_of {A} `{EqDecision A} (prev : option A) (xs : list A) (x : A) :
  x ∈ Rx.distinctUntilChanged_from prev xs → x ∈ xs.
Proof.
  revert prev. induction xs as [|y xs IH]; intros prev;
    cbn [Rx.distinctUntilChanged_from]; [done|].
  rewrite elem_of_cons. case_decide.
  - intros Hin. right. by apply (IH prev).
  - rewrite elem_of_cons. intros [->|Hin]; [by left|]. right. by apply (IH (Some y)).
Qed.

(** A triple of [combineLatest] holds values the sources have emitted. *)
Lemma combineLatest_from_sources (l : latest) (ins : list gate_input)
    (f h e : bool) :
  (f, h, e) ∈ combineLatest_from l ins →
  (focus l = Some f ∨ Focus f ∈ ins)
  ∧ (hover l = Some h ∨ Hover h ∈ ins)
  ∧ (enabled l = Some e ∨ Enabled e ∈ ins).
Proof.
  revert l. induction ins as [|i ins IH]; intros l; cbn [combineLatest_from].
  - by intros ?%elem_of_nil.
  - intros Hin.
    assert ((f, h, e) ∈ combineLatest_from (update i l) ins
            ∨ values (update i l) = Some (f, h, e)) as [Hrest|Hnow].
    { destruct (values (update i l)) as [v|]; [|by left].
      apply elem_of_cons in Hin as [->|?]; [by right|by left]. }
    + destruct (IH _ Hrest) as (Hf & Hh & He).
      rewrite !elem_of_cons.
      destruct i as [b|b|b]; simpl in *;
        intuition (simplify_eq; auto).
    + rewrite !elem_of_cons.
      destruct l as [lf lh le], i as [b|b|b]; unfold values in Hnow; simpl in *;
        destruct lf, lh, le; simplify_eq/=; intuition auto.
Qed.

(** X8. The gate opens only for a link that is focused or hovered while the
    preference is on.  If [active$] has emitted at all, then each of the
    three sources has emitted, the preference has emitted [true], and the
    focus or the hover has. *)
Theorem gate_opens_only_when (ins : list gate_input) :
  active ins ≠ [] →
  Enabled true ∈ ins
  ∧ (Focus true ∈ ins ∨ Hover true ∈ ins)
  ∧ (∃ b, Focus b ∈ ins)
  ∧ (∃ b, Hover b ∈ ins).
Proof.
  intros Hactive.
  destruct (active ins) as [|a rest] eqn:Hemits; [done|].
  assert (a ∈ active ins) as Hin by (rewrite Hemits; by left).
  unfold active, active_from in Hin. simpl in Hin.
  apply list_elem_of_filter in Hin as [-> Hin].
  apply distinct_elem_of in Hin.
  apply list_elem_of_fmap in Hin as ([[f h] e] & Hcombined & Hin).
  apply combineLatest_from_sources in Hin as ([|Hf] & [|Hh] & [|He]); try done.
  simpl in Hcombined. symmetry in Hcombined.
  apply andb_true_iff in Hcombined as [Hor ->].
  split_and!; [done| |by exists f|by exists h].
  apply orb_true_iff in Hor as [-> | ->]; [by left|by right].
Qed.

Lemma gate_opens_only_when_witness :
  Enabled true ∈ [Focus false; Enabled true; Hover true].
Proof.
  refine (proj1 (gate_opens_only_when [Focus false; Enabled true; Hover true] _)).
  vm_compute. discriminate.
Defined.

(* ------------------------------------------------------------------------- *)
(** * Further properties: the preview pipeline                                *)
(* ------------------------------------------------------------------------- *)

Section TraceFacts.
Context `{Environment}.

Lemma traced_snoc (url : string) (es : list effect) (x : effect) :
  traced url es → justified url es x → traced url (es ++ [x]).
Proof.
  intros Htraced Hx earlier e later Heq.
  destruct later as [|y later _] using rev_ind.
  - apply app_inj_tail in Heq as [<- <-]. done.
  - rewrite app_comm_cons, app_assoc in Heq.
    apply app_inj_tail in Heq as [Heq _]. by apply (Htraced earlier e later).
Qed.

Lemma accounted_same (url : string) (st st' : state) :
  request st' = request st → mounted st' = mounted st →
  effects st' = effects st →
  accounted url st → accounted url st'.
Proof. intros Hq Hm He. unfold accounted. by rewrite Hq, Hm, He. Qed.

(** The tooltip stays accounted for when effects are added. *)
Lemma mounted_accounted_app (es new : list effect) (t : tooltip) :
  (Mounted (tooltip_run t) (tooltip_els t) ∈ es
   ∧ ∀ o, o ∈ content t →
          rendered o = renderTooltip2 (tooltip_els t)
          ∧ Inserted (tooltip_run t) (rendered o) ∈ es) →
  Mounted (tooltip_run t) (tooltip_els t) ∈ es ++ new
  ∧ ∀ o, o ∈ content t →
         rendered o = renderTooltip2 (tooltip_els t)
         ∧ Inserted (tooltip_run t) (rendered o) ∈ es ++ new.
Proof.
  intros [Hm Ho]. split; [apply elem_of_app; by left|].
  intros o Hc. destruct (Ho o Hc). split; [done|]. apply elem_of_app. by left.
Qed.

Lemma traced_app (url : string) (es new : list effect) :
  traced url es →
  (∀ earlier x later, new = earlier ++ x :: later →
                      justified url (es ++ earlier) x) →
  traced url (es ++ new).
Proof.
  revert es. induction new as [|x new IH]; intros es Htraced Hnew.
  - by rewrite app_nil_r.
  - change (x :: new) with ([x] ++ new). rewrite app_assoc. apply IH.
    + apply traced_snoc; [done|].
      specialize (Hnew [] x new eq_refl). by rewrite app_nil_r in Hnew.
    + intros earlier y later ->. rewrite <- app_assoc.
      by apply (Hnew (x :: earlier) y later).
Qed.

Section Steps.
Context (el : URL).
Let url := toString (clear_search_hash el).

Lemma accounted_start_run (sitemap : gset string) (st : state) :
  consistent st → accounted url st → accounted url (start_run el sitemap st).
Proof.
  intros [Hstarted Hfresh _ _ _ _ _ _ _ _] (Htraced & Hrequest & Hmounted).
  unfold start_run. fold url. case_bool_decide as Hin.
  - destruct st as [g sm ac rn rq mt bd sr sq fl es]; simpl in *.
    destruct rq as [[previous u]|].
    + destruct (Hfresh previous u eq_refl) as (Hlt & _ & _).
      split_and!; simpl.
      * change (es ++ [Cancelled previous; Requested rn url])
          with (es ++ [Cancelled previous] ++ [Requested rn url]).
        rewrite app_assoc. apply traced_snoc; [apply traced_snoc; [done|]|].
        -- exists u. by apply Hrequest.
        -- split; [done|]. apply Forall_app. split; [done|].
           by repeat constructor.
      * intros r u' [= <- <-]. apply elem_of_app. right. right. by left.
      * intros t Ht. by apply mounted_accounted_app, Hmounted.
    + split_and!; simpl.
      * by apply traced_snoc.
      * intros r u' [= <- <-]. apply elem_of_app. right. by left.
      * intros t Ht. by apply mounted_accounted_app, Hmounted.
  - by destruct st.
Qed.

Lemma accounted_unsubscribe_content (st : state) :
  accounted url st → accounted url (unsubscribe_content st).
Proof.
  intros (Htraced & Hrequest & Hmounted). unfold unsubscribe_content.
  destruct st as [g sm ac rn rq mt bd sr sq fl es]; simpl in *.
  destruct mt as [[r els [|o rest]]|]; [by split| |by split].
  destruct (Hmounted _ eq_refl) as [Hm Ho]. simpl in Hm, Ho.
  destruct (Ho o) as [Hrendered Hinserted]; [by left|].
  split_and!; simpl.
  - by apply traced_snoc.
  - intros r' u Hr. apply elem_of_app. left. by apply Hrequest.
  - intros t [= <-]. simpl. split; [apply elem_of_app; by left|].
    intros o' Hin. destruct (Ho o') as [? ?]; [by right|].
    split; [done|]. apply elem_of_app. by left.
Qed.

Lemma accounted_subscribe_content (st : state) :
  accounted url st → accounted url (subscribe_content st).
Proof.
  intros (Htraced & Hrequest & Hmounted). unfold subscribe_content.
  destruct st as [g sm ac rn rq mt bd sr sq fl es]; simpl in *.
  destruct mt as [[r els rest]|]; [|by split].
  destruct (Hmounted _ eq_refl) as [Hm Ho]. simpl in Hm, Ho.
  split_and!; simpl.
  - apply traced_snoc; [done|]. by exists els.
  - intros r' u Hr. apply elem_of_app. left. by apply Hrequest.
  - intros t [= <-]. simpl. split; [apply elem_of_app; by left|].
    intros o Hin. apply elem_of_app in Hin as [Hin|Hin].
    + destruct (Ho o Hin) as [? ?]. split; [done|]. apply elem_of_app. by left.
    + apply list_elem_of_singleton in Hin as ->. simpl.
      split; [done|]. apply elem_of_app. right. by left.
Qed.

Lemma accounted_unmount (st : state) :
  accounted url st → accounted url (unmount st).
Proof.
  intros (Htraced & Hrequest & Hmounted). unfold unmount.
  destruct st as [g sm ac rn rq mt bd sr sq fl es]; simpl in *.
  destruct mt as [[r els rest]|]; [|by split].
  destruct (Hmounted _ eq_refl) as [Hm Ho]. simpl in Hm, Ho.
  split_and!; simpl.
  - apply traced_app; [done|].
    intros earlier x later Heq.
    assert (x ∈ (λ o, Removed r (rendered o)) <$> rest) as Hx.
    { rewrite Heq. apply elem_of_app. right. by left. }
    apply list_elem_of_fmap in Hx as (o & -> & Hin). simpl.
    destruct (Ho o Hin) as [_ ?]. apply elem_of_app. by left.
  - intros r' u Hr. apply elem_of_app. left. by apply Hrequest.
  - done.
Qed.

Lemma accounted_fail (st : state) : accounted url st → accounted url (fail st).
Proof.
  intros Hst. apply accounted_unmount in Hst as (Htraced & Hrequest & Hmounted).
  unfold fail. destruct (unmount st); simpl in *. by split_and!.
Qed.

Lemma accounted_mount (r : nat) (els : list node) (st : state) :
  (∃ u, Requested r u ∈ effects st) →
  (∀ els', Mounted r els' ∉ effects st) →
  (∃ heading rest,
     els = heading :: rest ∧ tagName heading = "h3" ∧ attributes heading = ∅
     ∧ rest ≠ [] ∧ Forall (λ n, is_element n = true) rest) →
  accounted url st → accounted url (mount r els st).
Proof.
  intros [u Hu] Hfirst Hels Hst.
  destruct (unmount_effects st) as (new & Hnew & Hremovals).
  pose proof (unmount_mounted st) as Hnone.
  apply accounted_unmount in Hst as (Htraced & Hrequest & Hmounted).
  unfold mount. set (st' := unmount st) in *. clearbody st'.
  split_and!; simpl.
  - apply traced_snoc; [done|]. simpl. split_and!; [|  |done].
    + exists u. rewrite Hnew. apply elem_of_app. by left.
    + intros els'. rewrite Hnew, elem_of_app. intros [Hin|Hin]; [by eapply Hfirst|].
      eapply Forall_forall in Hremovals as [_ ?]; [|exact Hin]. done.
  - intros r' u' Hr. apply elem_of_app. left. by apply Hrequest.
  - intros t [= <-]. simpl. split; [apply elem_of_app; right; by left|].
    by intros o ?%elem_of_nil.
Qed.

Lemma extract_elements (headline : position) (els : list node) :
  extract headline = Some els →
  ∃ rest, els = newHeading headline :: rest
          ∧ Forall (λ n, is_element n = true) rest.
Proof.
  assert (∀ p predicate, Forall (λ n, is_element n = true) (nextElements p predicate))
    as Helements.
  { intros p predicate. eapply Forall_impl; [apply collect_accepted|].
    by intros n [? _]. }
  unfold extract. destruct (bare_anchor headline).
  - destruct (parentElement headline) as [parent|]; simpl; [|done].
    intros [= <-]. eexists. split; [done|]. apply Forall_app. by split.
  - destruct (parentElement headline) as [parent|].
    + destruct (classList_contains "doc" (element parent)); intros [= <-];
        eexists; (split; [done|]); [apply Forall_app; by split|done].
    + intros [= <-]. eexists. by split.
Qed.

Lemma accounted_on_document (r : nat) (doc : node) (st : state) :
  (∃ u, Requested r u ∈ effects st) →
  (∀ els', Mounted r els' ∉ effects st) →
  accounted url st → accounted url (on_document el r doc st).
Proof.
  intros Hu Hfirst Hst. unfold on_document.
  destruct (target_selector el) as [sel|]; [|by apply accounted_fail].
  destruct (selector_throws sel); [by apply accounted_fail|].
  destruct (getOptionalElement sel doc) as [target|]; [|done].
  destruct (extract target) as [els|] eqn:Hels; [|by apply accounted_fail].
  destruct (length els =? 1) eqn:Hlen; [done|].
  apply accounted_mount; [done..| |done].
  apply extract_elements in Hels as (rest & -> & Hrest).
  exists (newHeading target), rest. split_and!; try done.
  intros ->. by rewrite Nat.eqb_refl in Hlen.
Qed.

Lemma accounted_on_response (doc : node) (st : state) :
  consistent st → accounted url st → accounted url (on_response el doc st).
Proof.
  intros Hconsistent Hst. unfold on_response.
  destruct (request st) as [[r u]|] eqn:Hrequest; [|done].
  destruct (request_fresh st Hconsistent r u Hrequest) as (_ & _ & Hfirst).
  assert (Requested r u ∈ effects st) as Hu.
  { destruct Hst as (_ & Hlogged & _). by apply Hlogged. }
  assert (accounted url (set_request None st)) as Hcleared.
  { destruct Hst as (Htraced & _ & Hmounted). by split_and!. }
  destruct (resolve doc u (sequence (set_request None st))) as [[doc' s']|];
    [|by apply accounted_fail].
  apply accounted_on_document; [by exists u|done|].
  by apply (accounted_same url (set_request None st)).
Qed.

Lemma accounted_step (st : state) (e : event) :
  consistent st → accounted url st → accounted url (step el st e).
Proof.
  intros Hconsistent Hst. unfold step. destruct (failed st) eqn:Hfailed; [done|].
  destruct e as [i|sitemap|doc| |].
  - destruct (gate_step (gate st) i) as [g emits].
    destruct emits; [|by apply (accounted_same url st)].
    unfold on_active. simpl.
    destruct (sitemaps st) as [|sitemap waiting].
    + by apply (accounted_same url st).
    + apply accounted_start_run.
      * by apply (consistent_same st).
      * by apply (accounted_same url st).
  - unfold on_sitemap. destruct (actives st) as [|waiting].
    + by apply (accounted_same url st).
    + apply accounted_start_run.
      * by apply (consistent_same st).
      * by apply (accounted_same url st).
  - by apply accounted_on_response.
  - by apply accounted_subscribe_content.
  - by apply accounted_unsubscribe_content.
Qed.

Lemma accounted_run (events : list event) (st : state) :
  consistent st → accounted url st → accounted url (run el events st).
Proof.
  revert st. induction events as [|e events IH]; intros st Hconsistent Hst;
    [done|].
  simpl. apply IH; [by apply consistent_step|by apply accounted_step].
Qed.

Lemma accounted_reached (events : list event) (sequence : nat) :
  accounted (location el) (run el events (initial sequence)).
Proof.
  rewrite <- (toString_cleared el). apply accounted_run.
  - apply consistent_initial.
  - split_and!; simpl; try done.
    intros earlier e later Heq. by destruct earlier.
Qed.

End Steps.

End TraceFacts.

(** X9. Every effect of the pipeline is accounted for by those before it.
    In every state the pipeline of a link reaches, of the effects logged so
    far:
    - a request is for the URL of the link up to the query, and no effect
      before it belongs to its run or to a later one;
    - a run that is cancelled was requested;
    - a run that mounts a tooltip was requested and mounts once; the
      elements are a new [h3] without attributes, so without [id], and at
      least one element after it;
    - an overlay inserted is [renderTooltip2] of the elements its run has
      mounted;
    - an overlay removed was inserted by the same run. *)
Theorem effects_are_traced `{Environment} (el : URL) (events : list event)
    (sequence : nat) :
  traced (location el) (effects (run el events (initial sequence))).
Proof. by destruct (accounted_reached el events sequence) as (? & _). Qed.

Section SilentFacts.
Context `{Environment} (el : URL).

Lemma silent_step (st : state) (e : event) :
  silent st →
  Forall (λ sitemap, location el ∉ sitemap) (sitemaps st) →
  (∀ sitemap, e = SitemapEmits sitemap → location el ∉ sitemap) →
  silent (step el st e)
  ∧ Forall (λ sitemap, location el ∉ sitemap) (sitemaps (step el st e))
  ∧ sequence (step el st e) = sequence st.
Proof.
  intros (He & Hq & Hm & Hb & Hf) Hwaiting Hnew. unfold step. rewrite Hf.
  destruct e as [i|sitemap|doc| |].
  - destruct (gate_step (gate st) i) as [g emits].
    destruct emits; [|by split_and!].
    unfold on_active. simpl.
    destruct (sitemaps st) as [|sitemap waiting]; [by split_and!|].
    apply Forall_cons in Hwaiting as [Hsitemap Hwaiting].
    unfold start_run. rewrite toString_cleared.
    rewrite bool_decide_eq_false_2 by done. by split_and!.
  - unfold on_sitemap. destruct (actives st) as [|waiting].
    + split_and!; simpl; try done.
      apply Forall_app. split; [done|]. constructor; [by apply Hnew|done].
    + unfold start_run. rewrite toString_cleared.
      rewrite bool_decide_eq_false_2 by (by apply Hnew). by split_and!.
  - unfold on_response. rewrite Hq. by split_and!.
  - unfold subscribe_content. rewrite Hm. by split_and!.
  - unfold unsubscribe_content. rewrite Hm. by split_and!.
Qed.

Lemma silent_run (events : list event) (st : state) :
  silent st →
  Forall (λ sitemap, location el ∉ sitemap) (sitemaps st) →
  Forall (λ sitemap, location el ∉ sitemap) (sitemap_emissions events) →
  silent (run el events st) ∧ sequence (run el events st) = sequence st.
Proof.
  revert st. induction events as [|e events IH]; intros st Hst Hwaiting Hnew;
    [done|].
  destruct (silent_step st e Hst Hwaiting) as (Hst' & Hwaiting' & Hsequence).
  { intros sitemap ->. by apply Forall_cons in Hnew as [? _]. }
  simpl. rewrite <- Hsequence. apply IH; [done..|].
  destruct e; try done. by apply Forall_cons in Hnew as [_ ?].
Qed.






End SilentFacts.

(** X10. A link to a page that no sitemap lists does nothing.  If none of
    the sitemaps emitted holds the URL of the link up to the query, then
    whatever the events are, no request has been issued and nothing has been
    mounted, inserted or removed, nothing has failed, and [sequence] is what
    it was. *)
Theorem outside_sitemap_is_silent `{Environment} (el : URL)
    (events : list event) (sequence : nat) :
  Forall (λ sitemap, location el ∉ sitemap) (sitemap_emissions events) →
  let st := run el events (initial sequence) in
  effects st = [] ∧ request st = None ∧ mounted st = None ∧ body st = []
  ∧ failed st = false ∧ Pipeline.sequence st = sequence.
Proof.
  intros Hnew st.
  destruct (silent_run el events (initial sequence)) as ((?&?&?&?&?) & ?);
    [by split_and!|done|done|].
  by split_and!.
Qed.

Lemma outside_sitemap_is_silent_witness :
  effects (@run Sample.env Sample.guide_url
             [GateInput (Enabled true); GateInput (Focus false);
              GateInput (Hover true);
              SitemapEmits {[ "https://example.com/reference/" ]};
              Response Sample.guide; TooltipShows]
             (initial 0)) = [].
Proof.
  refine (proj1 (@outside_sitemap_is_silent Sample.env Sample.guide_url
                   [GateInput (Enabled true); GateInput (Focus false);
                    GateInput (Hover true);
                    SitemapEmits {[ "https://example.com/reference/" ]};
                    Response Sample.guide; TooltipShows] 0 _)).
  constructor; [|constructor].
  intros Hin. apply elem_of_singleton in Hin. discriminate Hin.
Defined.

(** X11. A response with something to show mounts the tooltip.  When the
    document of the pending request resolves, the target is found in it and
    [extract] returns more than the heading, then after the response:
    nothing is pending; the tooltip of that run is mounted with these
    elements, and no overlay in the body until it subscribes to the
    content; the overlays of the tooltip mounted before, if it had any, have
    been removed; [sequence] has gone up by one.  The base [resolve] was
    given is the URL of the link up to the query. *)
Theorem response_mounts_tooltip `{Environment} (el : URL)
    (events : list event) (sequence k : nat) (url : string)
    (doc resolved_doc : node) (sequence' : nat) (sel : selector)
    (target : position) (els : list node) :
  let st := run el events (initial sequence) in
  let st' := step el st (Response doc) in
  failed st = false →
  request st = Some (k, url) →
  resolve doc url (Pipeline.sequence st) = Some (resolved_doc, sequence') →
  target_selector el = Some sel →
  getOptionalElement sel resolved_doc = Some target →
  extract target = Some els →
  length els ≠ 1 →
  url = location el
  ∧ request st' = None
  ∧ mounted st' = Some (Tooltip k els [])
  ∧ body st' = []
  ∧ effects st' =
    effects st
    ++ match mounted st with
       | Some (Tooltip previous _ overlays) =>
           (λ o, Removed previous (rendered o)) <$> overlays
       | None => []
       end
    ++ [Mounted k els]
  ∧ Pipeline.sequence st' = S (Pipeline.sequence st)
  ∧ failed st' = false.
Proof.
  intros st st' Hfailed Hrequest Hresolve Hsel Htarget Hels Hlen.
  pose proof (consistent_reached el events sequence) as Hconsistent.
  pose proof (accounted_reached el events sequence) as (Htraced & Hlogged & _).
  fold st in Hconsistent, Htraced, Hlogged.
  split.
  { apply Hlogged in Hrequest.
    apply list_elem_of_split in Hrequest as (earlier & later & Heq).
    by destruct (Htraced earlier _ later Heq). }
  subst st'. clearbody st. unfold step. rewrite Hfailed.
  unfold on_response. rewrite Hrequest.
  change (Pipeline.sequence (set_request None st)) with (Pipeline.sequence st).
  rewrite Hresolve. unfold on_document.
  rewrite Hsel, (getOptionalElement_found _ _ _ Htarget), Htarget, Hels.
  destruct (length els =? 1) eqn:Hone; [by apply Nat.eqb_eq in Hone|].
  apply resolve_elements in Hresolve as [-> _].
  destruct Hconsistent as [_ _ _ _ _ Hbody _ _ _ _].
  unfold mount, unmount.
  destruct st as [g sm ac rn rq mt bd sr sq fl es]; unfold held in *;
    simpl in *.
  destruct mt as [[previous els0 overlays]|]; simpl in *; subst bd.
  - rewrite remove_overlays_all by (by apply Forall_forall).
    split_and!; try done. by rewrite <- app_assoc.
  - by split_and!.
Qed.

Lemma response_mounts_tooltip_witness :
  mounted (@run Sample.env Sample.guide_url
             [SitemapEmits Sample.guide_sitemap;
              GateInput (Enabled true); GateInput (Focus false);
              GateInput (Hover true); Response Sample.guide]
             (initial 0))
  = Some (Tooltip 0 [Sample.el "h3" [] [Text "Install"];
                     Sample.el "p" [] [Text "Steps"]] []).
Proof.
  refine (proj1 (proj2 (proj2
    (@response_mounts_tooltip Sample.env Sample.guide_url
       [SitemapEmits Sample.guide_sitemap;
        GateInput (Enabled true); GateInput (Focus false);
        GateInput (Hover true)]
       0 0 "https://example.com/guide/" Sample.guide Sample.guide 1
       (ArticleId "install")
       (Position (Sample.el "h2" [("id", "install")] [Text "Install"]) []
          [Sample.el "p" [] [Text "Steps"];
           Sample.el "h2" [("id", "next")] [Text "Next"]]
          [Frame "article" ∅ [] []; Frame "body" ∅ [] []; Frame "html" ∅ [] []])
       [Sample.el "h3" [] [Text "Install"]; Sample.el "p" [] [Text "Steps"]]
       _ _ _ _ _ _ _))));
    try (vm_compute; reflexivity).
  vm_compute. discriminate.
Defined.

(** X12. The content of a mounted tooltip is rendered when the tooltip
    subscribes to it and removed when it unsubscribes.  For a tooltip
    mounted without a subscription to its content: the subscription appends
    one overlay, [renderTooltip2] of the elements, which is then all the
    body holds for the link; the unsubscription removes that overlay, and
    the tooltip and the body are as before. *)
Theorem content_is_rendered_and_removed `{Environment} (el : URL)
    (events : list event) (sequence k : nat) (els : list node) :
  let st := run el events (initial sequence) in
  let shown := step el st TooltipShows in
  let hidden := step el shown TooltipHides in
  failed st = false →
  mounted st = Some (Tooltip k els []) →
  (∃ o, rendered o = renderTooltip2 els
        ∧ owner o = k
        ∧ mounted shown = Some (Tooltip k els [o])
        ∧ body shown = [o])
  ∧ effects shown = effects st ++ [Inserted k (renderTooltip2 els)]
  ∧ mounted hidden = mounted st
  ∧ body hidden = body st
  ∧ effects hidden = effects shown ++ [Removed k (renderTooltip2 els)].
Proof.
  intros st shown hidden Hfailed Hmounted.
  pose proof (consistent_reached el events sequence)
    as [_ _ _ _ _ Hbody _ _ _ _].
  fold st in Hbody. unfold held in Hbody. rewrite Hmounted in Hbody.
  subst hidden shown. clearbody st.
  unfold step at 2 3 4 5 6 7 8. rewrite Hfailed.
  unfold subscribe_content. rewrite Hmounted, Hbody.
  destruct st as [g sm ac rn rq mt bd sr sq fl es]; simpl in *. subst fl mt bd.
  unfold step, unsubscribe_content, remove_overlay. simpl.
  rewrite filter_cons_False by (by intros ?).
  split_and!; try done. by exists (Overlay sr k (renderTooltip2 els)).
Qed.

Lemma content_is_rendered_and_removed_witness :
  effects (@run Sample.env Sample.guide_url
             [SitemapEmits Sample.guide_sitemap;
              GateInput (Enabled true); GateInput (Focus false);
              GateInput (Hover true); Response Sample.guide; TooltipShows]
             (initial 0))
  = effects (@run Sample.env Sample.guide_url
               [SitemapEmits Sample.guide_sitemap;
                GateInput (Enabled true); GateInput (Focus false);
                GateInput (Hover true); Response Sample.guide]
               (initial 0))
    ++ [Inserted 0 (Sample.el "div" [("class", "md-tooltip2")]
                      [Sample.el "h3" [] [Text "Install"];
                       Sample.el "p" [] [Text "Steps"]])].
Proof.
  refine (proj1 (proj2
    (@content_is_rendered_and_removed Sample.env Sample.guide_url
       [SitemapEmits Sample.guide_sitemap;
        GateInput (Enabled true); GateInput (Focus false);
        GateInput (Hover true); Response Sample.guide]
       0 0 [Sample.el "h3" [] [Text "Install"]; Sample.el "p" [] [Text "Steps"]]
       _ _)));
    vm_compute; reflexivity.
Defined.


(** A fragment with a quote in it: where [querySelector] rejects the
    selector it is pasted into, the response ends the pipeline. *)
Example quoted_fragment_fails :
  let link :=
    Url "https://example.com/guide/" ""
      (String "#" (String "a" (String "034" "b"))) in
  failed (@run Sample.env link
            [SitemapEmits Sample.guide_sitemap;
             GateInput (Enabled true); GateInput (Focus false);
             GateInput (Hover true); Response Sample.guide]
            (initial 0)) = true.
Proof. vm_compute. reflexivity. Qed.

Section ZipFacts.
Context `{Environment} (el : URL).



End ZipFacts.


